(** * The voice-agent client script, [app/static/JS/script.js]

    A shallow embedding of the streaming core of the page script: the
    transcript normaliser and reconciler, the chat bubbles, the streamed
    WAV assembler, the autoplay gate with its retry loop, the PCM framer
    and the microphone toggle.

    Conventions.
    - A JavaScript string is the list of its UTF-16 code units.
    - A [Uint8Array] is a [list byte].
    - The closure variables of the script live in one [State] record; a
      function of the script becomes a function on [State].
    - What the browser decides (whether a promise settles, what a parser
      returns) is an argument of the function that asks for it.
    - Calls that leave the script (a socket, a timer, the audio element)
      are appended to the [log] of the state, in program order. *)

From Stdlib Require Import String Ascii.
From Stdlib Require Import ZArith List Lia QArith Qround Bool.
From coqutil Require Import Byte Word.LittleEndianList.
From stdpp Require Import base option list.
Import ListNotations.
Local Open Scope Z_scope.

(** ** JavaScript strings *)

Abbreviation code_unit := Z (only parsing).
Abbreviation jsstring := (list Z) (only parsing).

(** An ASCII literal as a JavaScript string. *)
Definition js (s : string) : jsstring :=
  map (fun a => Z.of_N (N_of_ascii a)) (list_ascii_of_string s).

(** Truthiness of a string value: every string but the empty one. *)
Definition truthy (s : jsstring) : bool :=
  match s with [] => false | _ :: _ => true end.

(** [===] on two strings. *)
Definition str_eqb (a b : jsstring) : bool := bool_decide (a = b).

(** The class [\s] of a regular expression, which is also what
    [String.prototype.trim] removes: WhiteSpace and LineTerminator of
    ECMAScript (TAB, LF, VT, FF, CR, SP, NBSP, U+1680, U+2000..U+200A,
    U+2028, U+2029, U+202F, U+205F, U+3000 and U+FEFF). *)
Definition is_space (c : code_unit) : bool :=
  ((9 <=? c) && (c <=? 13))
  || (c =? 32) || (c =? 0xA0) || (c =? 0x1680)
  || ((0x2000 <=? c) && (c <=? 0x200A))
  || (c =? 0x2028) || (c =? 0x2029) || (c =? 0x202F)
  || (c =? 0x205F) || (c =? 0x3000) || (c =? 0xFEFF).

(** The character class of the second regular expression: U+200B to
    U+200D, and U+FEFF. *)
Definition is_zero_width (c : code_unit) : bool :=
  ((0x200B <=? c) && (c <=? 0x200D)) || (c =? 0xFEFF).

Definition SP : code_unit := 32.

(** [t.replace(/\s+/g, ' ')]: every maximal run of white space becomes
    one space.  [in_run] tells that the previous unit was white space,
    so that the run has already been replaced. *)
Fixpoint replace_ws_runs (in_run : bool) (t : jsstring) : jsstring :=
  match t with
  | [] => []
  | c :: r =>
      if is_space c
      then (if in_run then replace_ws_runs true r
            else SP :: replace_ws_runs true r)
      else c :: replace_ws_runs false r
  end.

(** The second [replace]: every unit of that class is deleted. *)
Fixpoint remove_zero_width (t : jsstring) : jsstring :=
  match t with
  | [] => []
  | c :: r =>
      if is_zero_width c then remove_zero_width r
      else c :: remove_zero_width r
  end.

Fixpoint trim_start (t : jsstring) : jsstring :=
  match t with
  | [] => []
  | c :: r => if is_space c then trim_start r else t
  end.

Fixpoint trim_end (t : jsstring) : jsstring :=
  match t with
  | [] => []
  | c :: r =>
      match trim_end r with
      | [] => if is_space c then [] else [c]
      | r' => c :: r'
      end
  end.

(** [t.trim()]. *)
Definition trim (t : jsstring) : jsstring := trim_end (trim_start t).

(** [normalizeTranscript], script.js lines 575-577. *)
Definition normalizeTranscript (t : jsstring) : jsstring :=
  trim (remove_zero_width (replace_ws_runs false t)).

(** U+200B ZERO WIDTH SPACE. *)
Definition ZWSP : code_unit := 0x200B.


(** ** Bytes and [DataView] *)

Abbreviation bytes := (list byte) (only parsing).

(** The test [b[0] === 0x52 && b[1] === 0x49 && b[2] === 0x46 &&
    b[3] === 0x46]; an index past the end reads [undefined] and the
    comparison is false. *)
Definition starts_with_RIFF (b : bytes) : bool :=
  match b with
  | b0 :: b1 :: b2 :: b3 :: _ =>
      (byte.unsigned b0 =? 0x52) && (byte.unsigned b1 =? 0x49)
      && (byte.unsigned b2 =? 0x46) && (byte.unsigned b3 =? 0x46)
  | _ => false
  end.

(** Size of the canonical WAV header the script assumes. *)
Definition WAV_HEADER : nat := 44.

(** [view.setUint32(off, v, true)]: [v] is reduced modulo 2^32 and its
    four bytes are stored least significant first.  A range that does
    not fit in the buffer raises a RangeError: [None]. *)
Definition setUint32 (buf : bytes) (off : nat) (v : Z) : option bytes :=
  if (off + 4 <=? length buf)%nat
  then Some (firstn off buf ++ le_split 4 v ++ skipn (off + 4) buf)
  else None.

(** [view.getUint32(off, true)]. *)
Definition getUint32 (buf : bytes) (off : nat) : Z :=
  le_combine (firstn 4 (skipn off buf)).

(** [view.setInt16(off, v, true)] for an integer [v]: reduced modulo
    2^16, two bytes, least significant first. *)
Definition setInt16 (buf : bytes) (off : nat) (v : Z) : option bytes :=
  if (off + 2 <=? length buf)%nat
  then Some (firstn off buf ++ le_split 2 v ++ skipn (off + 2) buf)
  else None.

(** [view.getInt16(off, true)]: the two bytes read as a signed number. *)
Definition getInt16 (buf : bytes) (off : nat) : Z :=
  let u := le_combine (firstn 2 (skipn off buf)) in
  if u <? 2 ^ 15 then u else u - 2 ^ 16.

(** ** The state of the script *)

Inductive Role := user | agent.

(** One [div.msg] of the chat: the class of the row, the text of its
    bubble, whether the bubble carries the class [final], and the URL
    behind its play button when it has one. *)
Record Row := mkRow {
  role : Role;
  textContent : jsstring;
  final : bool;
  playBtn : option jsstring
}.

Inductive ReadyState := CONNECTING | OPEN | CLOSING | CLOSED.

(** A base64 string as it arrives, with what [atob] makes of it: the
    decoded bytes, or [None] when [atob] raises. *)
Record Base64 := mkBase64 {
  encoded : jsstring;
  atob : option bytes
}.

(** Calls that leave the script. *)
Inductive Effect :=
| SetStatus (s : jsstring)          (* llmStatus.textContent = s *)
| NewWebSocket (id : nat)           (* new WebSocket(url) *)
| WsClose (id : nat)                (* ws.close() *)
| WsSend (id : nat) (frame : bytes) (* ws.send(buffer) *)
| GetUserMedia                      (* navigator.mediaDevices.getUserMedia *)
| StopTracks                        (* stream.getTracks().forEach(t => t.stop()) *)
| NewCaptureGraph                   (* AudioContext, source and processor, connected *)
| UiSound (start : bool)            (* uiSoundStart / uiSoundStop .play() *)
| PromptForKeys (missing : list jsstring)
| HidePrompt
| SilentProbe                       (* the one-sample buffer of the unlock *)
| AudioPause                        (* agentAudio.pause(), currentTime = 0 *)
| AudioSetSrc (url : jsstring)      (* agentAudio.src = url *)
| AudioPlay                         (* agentAudio.play() *)
| SetTimeout (ms : Z)               (* setTimeout(f, ms) *)
| StopSource                        (* murfSourceNode.stop(0) *)
| StartSource                       (* source.start() *)
| DecodeAudioData (buf : bytes)     (* murfAudioCtx.decodeAudioData *)
| Console (msg : jsstring).

(** What [new (window.AudioContext || window.webkitAudioContext)()]
    does in this browser: it yields a context, it raises, or the
    window has neither constructor (and the [new] raises a TypeError).
    [message] is the [message] of the error raised. *)
Inductive AudioContextSupport :=
| AudioContextWorks
| AudioContextThrows (message : jsstring)
| NoAudioContext (message : jsstring).

Definition constructs (s : AudioContextSupport) : bool :=
  match s with AudioContextWorks => true | _ => false end.

(** The document and the window: the elements the script looked up
    when the page loaded ([None] and [false] when [getElementById]
    returned [null]), the audio support of the window, and the value
    [Date.now()] returns at present. *)
Record Dom := mkDom {
  llmStatus : option jsstring;
  chatMessages : option (list Row);
  agentAudio : bool;
  audioContext : AudioContextSupport;
  dateNow : Z
}.

(** Lines 49-53. *)
Record Murf := mkMurf {
  murfAudioCtx : bool;                 (* false: null *)
  murfAudioChunks : list bytes;
  murfPlaying : bool;
  murfFirstChunk : bool;
  murfSourceNode : bool                (* false: null *)
}.

(** Lines 134-135. *)
Record Gate := mkGate {
  audioUnlocked : bool;
  pendingAutoPlayUrl : option jsstring
}.

(** Lines 518-520: the variables the message handler closes over.
    [liveRow] is a reference to a row of the chat: its index. *)
Record Reconciler := mkReconciler {
  liveRow : option nat;
  lastPartial : jsstring;
  lastDisplayedFinal : jsstring
}.

(** Lines 358 and 492-495.  [streamWS] and [streamMedia] are references
    into the sockets and media streams the browser has handed out;
    [sockets] holds the ready state of every socket created so far and
    [tracksLive] whether the tracks of each stream still run.
    [capturing] tells that a capture graph is connected. *)
Record Stream := mkStream {
  streamWS : option nat;
  sockets : list ReadyState;
  streamMedia : option nat;
  tracksLive : list bool;
  streaming : bool;
  isMicRecording : bool;
  capturing : bool
}.

Record State := mkState {
  dom : Dom;
  murf : Murf;
  gate : Gate;
  reco : Reconciler;
  stream : Stream;
  log : list Effect
}.

Definition with_dom (f : Dom -> Dom) (st : State) : State :=
  mkState (f (dom st)) (murf st) (gate st) (reco st) (stream st) (log st).
Definition with_murf (f : Murf -> Murf) (st : State) : State :=
  mkState (dom st) (f (murf st)) (gate st) (reco st) (stream st) (log st).
Definition with_gate (f : Gate -> Gate) (st : State) : State :=
  mkState (dom st) (murf st) (f (gate st)) (reco st) (stream st) (log st).
Definition with_reco (f : Reconciler -> Reconciler) (st : State) : State :=
  mkState (dom st) (murf st) (gate st) (f (reco st)) (stream st) (log st).
Definition with_stream (f : Stream -> Stream) (st : State) : State :=
  mkState (dom st) (murf st) (gate st) (reco st) (f (stream st)) (log st).
Definition emit (e : Effect) (st : State) : State :=
  mkState (dom st) (murf st) (gate st) (reco st) (stream st) (log st ++ [e]).

(** How a call ends: normally, or by an exception raised in the state
    reached so far (an exception undoes nothing). *)
Inductive Completion :=
| Normal (st : State)
| Throw (st : State).

(** [if (llmStatus) llmStatus.textContent = s]. *)
Definition set_status (s : jsstring) (st : State) : State :=
  match llmStatus (dom st) with
  | Some _ =>
      emit (SetStatus s)
        (with_dom (fun d => mkDom (Some s) (chatMessages d) (agentAudio d)
                                  (audioContext d) (dateNow d)) st)
  | None => st
  end.

(** U+2026 HORIZONTAL ELLIPSIS, which ends several status texts. *)
Definition ELLIPSIS : code_unit := 0x2026.

(** ** The streamed WAV assembler, lines 48-131 *)

(** [initMurfStreamPlayback], lines 55-67.  The constructor call is the
    only statement that can raise, and it comes first. *)
Definition initMurfStreamPlayback (st : State) : Completion :=
  if negb (murfAudioCtx (murf st)) && negb (constructs (audioContext (dom st)))
  then Throw st
  else
    let st1 :=
      with_murf (fun m => mkMurf true [] true true (murfSourceNode m)) st in
    let st2 :=
      if murfSourceNode (murf st1) then emit StopSource st1 else st1 in
    let st3 :=
      with_murf (fun m => mkMurf (murfAudioCtx m) (murfAudioChunks m)
                                 (murfPlaying m) (murfFirstChunk m) false)
        st2 in
    Normal (set_status (js "Buffering Murf audio" ++ [ELLIPSIS]) st3).

(** [pushMurfAudioChunk], lines 69-84. *)
Definition pushMurfAudioChunk (b64 : Base64) (st : State) : Completion :=
  match atob b64 with
  | None => Throw st
  | Some decoded =>
      let len := length decoded in
      let chunk :=
        if negb (murfFirstChunk (murf st)) && (WAV_HEADER <=? len)%nat
           && starts_with_RIFF decoded
        then skipn WAV_HEADER decoded
        else decoded in
      Normal
        (with_murf
           (fun m => mkMurf (murfAudioCtx m) (murfAudioChunks m ++ [chunk])
                            (murfPlaying m) false (murfSourceNode m)) st)
  end.

(** The buffer [fullAudio] of [finalizeMurfStream] at the call of
    [decodeAudioData], lines 91-109: the chunks end to end, with the
    two size fields rewritten when the first chunk looks like a WAV
    header.  [None] when a [setUint32] raises. *)
Definition fullAudio (chunks : list bytes) : option bytes :=
  let full := concat chunks in
  match chunks with
  | first :: _ =>
      if (WAV_HEADER <=? length first)%nat && starts_with_RIFF first
      then
        let dataSize := Z.of_nat (length full) - 44 in
        match setUint32 full 4 (36 + dataSize) with
        | Some full1 => setUint32 full1 40 dataSize
        | None => None
        end
      else Some full
  | [] => Some full
  end.

(** [finalizeMurfStream], lines 86-131, up to the call of
    [decodeAudioData]; what the decoder calls back later is
    [onDecoded], [onDecodeError] and [onSourceEnded] below.  The
    [resume()] of a suspended context changes nothing the script
    reads and is left out. *)
Definition finalizeMurfStream (st : State) : Completion :=
  let st1 :=
    with_murf
      (fun m => mkMurf (murfAudioCtx m) (murfAudioChunks m) false
                       (murfFirstChunk m) (murfSourceNode m)) st in
  if negb (murfAudioCtx (murf st1))
     || (length (murfAudioChunks (murf st1)) =? 0)%nat
  then Normal st1
  else
    match fullAudio (murfAudioChunks (murf st1)) with
    | Some buf => Normal (emit (DecodeAudioData buf) st1)
    | None => Throw st1
    end.

(** The success callback of [decodeAudioData], lines 111-127. *)
Definition onDecoded (st : State) : State :=
  emit StartSource
    (set_status (js "Speaking" ++ [ELLIPSIS])
       (with_murf
          (fun m => mkMurf (murfAudioCtx m) (murfAudioChunks m)
                           (murfPlaying m) (murfFirstChunk m) true) st)).

(** The error callback of [decodeAudioData], lines 127-130. *)
Definition onDecodeError (st : State) : State :=
  set_status (js "Audio decode error") st.

(** [source.onended], lines 119-125. *)
Definition onSourceEnded (st : State) : State :=
  with_murf
    (fun m => mkMurf false (murfAudioChunks m) (murfPlaying m)
                     (murfFirstChunk m) false)
    (set_status [] st).

(** ** Chat bubbles, lines 381-410 *)

(** The text shown for a message without text, line 388. *)
Definition placeholder (r : Role) : jsstring :=
  match r with
  | user => js "[Unrecognized]"
  | agent => js "[No response]"
  end.

(** The text of a new bubble, line 388:
    [(text && String(text).trim()) || (role === 'user' ?
    '[Unrecognized]' : '[No response]')].  [None] is a [text] that is
    [null] or [undefined]. *)
Definition bubble_text (r : Role) (text : option jsstring) : jsstring :=
  let shown :=
    match text with
    | Some t => if truthy t then trim t else t
    | None => []
    end in
  if truthy shown then shown else placeholder r.

(** [addMsg(role, text, opts)]; [audioUrl] is [opts.audioUrl].  The
    result is the new state and the reference to the new row, [None]
    for the [null] the function returns when the page has no chat. *)
Definition addMsg (r : Role) (text : option jsstring)
    (audioUrl : option jsstring) (st : State) : State * option nat :=
  match chatMessages (dom st) with
  | None => (st, None)
  | Some rows =>
      let btn :=
        match r, audioUrl with
        | agent, Some u => if truthy u then Some u else None
        | _, _ => None
        end in
      let row := mkRow r (bubble_text r text) false btn in
      (with_dom (fun d => mkDom (llmStatus d) (Some (rows ++ [row]))
                                (agentAudio d) (audioContext d) (dateNow d))
         st,
       Some (length rows))
  end.

(** An assignment through a row reference: the row at index [i] is
    replaced by [f] of it. *)
Definition update_row (i : nat) (f : Row -> Row) (st : State) : State :=
  with_dom (fun d => mkDom (llmStatus d)
                           (option_map (alter f i) (chatMessages d))
                           (agentAudio d) (audioContext d) (dateNow d)) st.

(** [liveRow.bubble.textContent = t]. *)
Definition set_bubble_text (i : nat) (t : jsstring) : State -> State :=
  update_row i (fun r => mkRow (role r) t (final r) (playBtn r)).

(** [liveRow.bubble.classList.add('final')]. *)
Definition mark_final (i : nat) : State -> State :=
  update_row i (fun r => mkRow (role r) (textContent r) true (playBtn r)).

(** ** The message handler, lines 521-574 *)

(** What [JSON.parse(raw)] and the tests on its result make of a
    message.  The fields have the types of the socket protocol:
    [audio_b64] is a string, [transcript] and [llm_response] are
    strings when present ([None]: absent or [null]).
    - [NotJson]: [JSON.parse] raises;
    - [Unrecognized]: it returns a value that passes none of the
      three tests on [obj.type]. *)
Inductive Parsed :=
| NotJson
| Unrecognized
| TtsChunk (audio_b64 : Base64)
| TtsDone
| TurnEnd (transcript llm_response : option jsstring).

(** [event.data]: a text frame, or a binary one (an [ArrayBuffer]). *)
Inductive Data :=
| Text (raw : jsstring)
| Binary.

Record MessageEvent := mkMessage {
  data : Data;
  parsed : Parsed
}.

(** A value used as a condition: a string that is present and not
    empty. *)
Definition present (v : option jsstring) : bool :=
  match v with Some s => truthy s | None => false end.

(** The branch [obj.type === 'turn_end'], lines 537-557. *)
Definition onTurnEnd (transcript llm_response : option jsstring)
    (st : State) : State :=
  (* line 538 *)
  let finalText : option jsstring :=
    match transcript with
    | Some t =>
        if truthy t then Some (normalizeTranscript t)
        else if truthy (lastPartial (reco st))
             then Some (lastPartial (reco st)) else None
    | None =>
        if truthy (lastPartial (reco st))
        then Some (lastPartial (reco st)) else None
    end in
  (* lines 540-544 *)
  let '(st1, live) :=
    match liveRow (reco st) with
    | None =>
        if present finalText then addMsg user finalText None st
        else (st, None)
    | Some i =>
        match finalText with
        | Some ft =>
            if truthy ft then (set_bubble_text i ft st, Some i)
            else (st, Some i)
        | None => (st, Some i)
        end
    end in
  (* lines 545-547 *)
  let st2 := match live with Some i => mark_final i st1 | None => st1 end in
  (* line 548 *)
  let st3 :=
    set_status
      (match finalText with
       | Some ft => if truthy ft then js "Final: " ++ ft else js "Turn ended"
       | None => js "Turn ended"
       end) st2 in
  (* line 549 *)
  let shownFinal := match finalText with Some ft => ft | None => [] end in
  (* lines 551-553 *)
  let st4 :=
    if present llm_response then fst (addMsg agent llm_response None st3)
    else st3 in
  (* lines 554-555 *)
  with_reco (fun _ => mkReconciler None [] shownFinal) st4.

(** The raw-text path, lines 559-570. *)
Definition onPartial (d : Data) (st : State) : State :=
  match d with
  | Binary => st
  | Text raw =>
      if truthy (trim raw) then
        let text := normalizeTranscript raw in
        if negb (str_eqb text (lastPartial (reco st))) then
          let st1 :=
            with_reco (fun r => mkReconciler (liveRow r) text
                                             (lastDisplayedFinal r)) st in
          let st2 :=
            match liveRow (reco st1) with
            | None =>
                let '(s, live) := addMsg user (Some text) None st1 in
                with_reco (fun r => mkReconciler live (lastPartial r)
                                                 (lastDisplayedFinal r)) s
            | Some i => set_bubble_text i text st1
            end in
          set_status text st2
        else st
      else st
  end.

(** [streamWS.onmessage].  An exception raised in the inner [try]
    (by [JSON.parse], by [atob], by a constructor) is swallowed by its
    [catch] and control falls through to the raw-text path, in the
    state reached when it was raised. *)
Definition onmessage (ev : MessageEvent) (st : State) : State :=
  let inner : Completion + State :=   (* inl: fell out of the try; inr: returned *)
    match parsed ev with
    | NotJson => inl (Throw st)
    | Unrecognized => inl (Normal st)
    | TtsChunk b64 =>
        let started :=
          if negb (murfPlaying (murf st)) then initMurfStreamPlayback st
          else Normal st in
        match started with
        | Throw st1 => inl (Throw st1)
        | Normal st1 =>
            match pushMurfAudioChunk b64 st1 with
            | Normal st2 => inr st2
            | Throw st2 => inl (Throw st2)
            end
        end
    | TtsDone =>
        match finalizeMurfStream st with
        | Normal st1 => inr (emit (Console (js "[client] TTS streaming done")) st1)
        | Throw st1 => inl (Throw st1)
        end
    | TurnEnd transcript llm_response =>
        inr (onTurnEnd transcript llm_response st)
    end in
  match inner with
  | inr st' => st'
  | inl (Normal st') | inl (Throw st') => onPartial (data ev) st'
  end.

(** Messages are handled one after the other, in arrival order. *)
Definition onmessages (evs : list MessageEvent) (st : State) : State :=
  fold_left (fun s ev => onmessage ev s) evs st.

(** ** The autoplay gate and the retry loop, lines 133-199 *)

(** [String(Date.now())]. *)
Definition decimal (n : Z) : jsstring :=
  js (DecimalString.NilZero.string_of_int (Z.to_int n)).

(** [url.includes('?')]. *)
Definition includes_question_mark (url : jsstring) : bool :=
  existsb (fun c => c =? 63) url.

(** Line 176: [url + (url.includes('?') ? '&' : '?') + 't=' +
    Date.now()]. *)
Definition cacheBust (url : jsstring) (now : Z) : jsstring :=
  url ++ (if includes_question_mark url then js "&" else js "?")
      ++ js "t=" ++ decimal now.

(** [playAgentAudio(url, force)], lines 159-185: what runs before the
    function returns.  It ends by installing [onloadeddata], whose
    run is [onloadeddata] below. *)
Definition playAgentAudio (url : jsstring) (force : bool) (st : State)
    : State :=
  if negb (agentAudio (dom st)) || negb (truthy url) then st
  else if negb (audioUnlocked (gate st)) && negb force then
    with_gate (fun g => mkGate (audioUnlocked g) (Some url)) st
  else
    let cacheBustUrl := cacheBust url (dateNow (dom st)) in
    emit (AudioSetSrc cacheBustUrl) (emit AudioPause st).

(** [retryPlay(attempt)], lines 188-198, for the call
    [playAgentAudio(url, _)] it belongs to.  [outcomes] tells how the
    promises of the successive [agentAudio.play()] calls settle:
    [true] fulfilled, [false] rejected; when the list is used up the
    last promise is still pending. *)
Fixpoint retryPlay (url : jsstring) (outcomes : list bool) (attempt : Z)
    (st : State) : State :=
  if 3 <? attempt then
    with_gate (fun g => mkGate (audioUnlocked g) (Some url)) st
  else
    let st1 := emit AudioPlay (emit (SetTimeout (250 * attempt)) st) in
    match outcomes with
    | [] => st1
    | true :: _ => emit (Console (js "Audio playback started (retry)")) st1
    | false :: rest => retryPlay url rest (attempt + 1) st1
    end.

(** [agentAudio.onloadeddata], lines 180-185. *)
Definition onloadeddata (url : jsstring) (outcomes : list bool)
    (st : State) : State :=
  let st1 := emit AudioPlay st in
  match outcomes with
  | [] => st1
  | true :: _ => st1
  | false :: rest =>
      retryPlay url rest 1
        (emit (Console (js "First play attempt blocked:")) st1)
  end.

(** Lines 149 and 154:
    [if (pendingAutoPlayUrl) { const u = pendingAutoPlayUrl;
    pendingAutoPlayUrl = null; playAgentAudio(u, true); }]. *)
Definition flushPending (st : State) : State :=
  match pendingAutoPlayUrl (gate st) with
  | Some u =>
      if truthy u then
        playAgentAudio u true
          (with_gate (fun g => mkGate (audioUnlocked g) None) st)
      else st
  | None => st
  end.

(** [unlockAudioIfNeeded], lines 136-155. *)
Definition unlockAudioIfNeeded (st : State) : State :=
  if audioUnlocked (gate st) then st
  else
    let unlocked s :=
      with_gate (fun g => mkGate true (pendingAutoPlayUrl g)) s in
    match audioContext (dom st) with
    | AudioContextWorks =>
        flushPending (unlocked (emit (SetTimeout 25) (emit SilentProbe st)))
    | AudioContextThrows _ =>
        flushPending (unlocked (emit (Console (js "Audio unlock fallback")) st))
    | NoAudioContext _ =>
        flushPending (unlocked st)
    end.

(** ** The PCM framer, lines 587-599 *)

(** An element of the [Float32Array] the processor hands over.  A
    finite single-precision number is a rational [m * 2^e] with
    [|m| < 2^24]; its products by [0x8000] and [0x7FFF] need at most
    39 significant bits, so the double-precision arithmetic of the
    loop is exact on it and rational arithmetic describes it. *)
Inductive Sample :=
| NaN
| Infinite (negative : bool)
| Finite (q : Q).

(** [Math.max(-1, Math.min(1, x))]. *)
Definition clamp (x : Sample) : Sample :=
  match x with
  | NaN => NaN
  | Infinite negative => Finite (if negative then -1 else 1)%Q
  | Finite q =>
      let m := if Qle_bool q 1 then q else 1%Q in      (* Math.min(1, q) *)
      Finite (if Qle_bool (-1) m then m else (-1)%Q)   (* Math.max(-1, m) *)
  end.

(** [s < 0 ? s * 0x8000 : s * 0x7FFF]; a comparison with NaN is
    false and a product with NaN is NaN. *)
Definition scale (s : Sample) : Sample :=
  match s with
  | NaN => NaN
  | Infinite negative => Infinite negative
  | Finite q =>
      if Qle_bool 0 q then Finite (q * 0x7FFF)%Q else Finite (q * 0x8000)%Q
  end.

(** The integer [setInt16] stores for a number: NaN and the infinities
    give 0, a finite number is truncated towards zero (the reduction
    modulo 2^16 is in [setInt16]). *)
Definition ToInteger (v : Sample) : Z :=
  match v with
  | NaN => 0
  | Infinite _ => 0
  | Finite q => Z.quot (Qnum q) (Z.pos (Qden q))
  end.

(** The loop of lines 592-595, from index [i] on. *)
Fixpoint convert (i : nat) (inputData : list Sample) (buf : bytes)
    : option bytes :=
  match inputData with
  | [] => Some buf
  | x :: rest =>
      match setInt16 buf (i * 2) (ToInteger (scale (clamp x))) with
      | Some buf' => convert (S i) rest buf'
      | None => None
      end
  end.

(** The frame built for one quantum, lines 588-595: [None] when a
    [setInt16] raises. *)
Definition frame (inputData : list Sample) : option bytes :=
  convert 0 inputData (repeat Byte.x00 (length inputData * 2)).

(** The two bytes the loop writes for the sample [x]. *)
Definition pcm16 (x : Sample) : bytes :=
  le_split 2 (ToInteger (scale (clamp x))).

(** The ready state of the socket [streamWS] refers to. *)
Definition readyState (st : State) : option ReadyState :=
  match streamWS (stream st) with
  | Some id => sockets (stream st) !! id
  | None => None
  end.

(** [processor.onaudioprocess], lines 587-599. *)
Definition onaudioprocess (inputData : list Sample) (st : State)
    : Completion :=
  match frame inputData with
  | None => Throw st
  | Some buffer =>
      match streamWS (stream st), readyState st with
      | Some id, Some OPEN => Normal (emit (WsSend id buffer) st)
      | _, _ => Normal st
      end
  end.

(** ** The microphone toggle, lines 308-379 and 491-623 *)

(** What [getCurrentKeys()] returns, lines 308-316. *)
Record Keys := mkKeys {
  GEMINI : jsstring;
  AAI : jsstring;
  MURF : jsstring;
  TAVILY : jsstring;
  OW : jsstring
}.

Inductive Feature := mic | tts | echo.

(** The list [missing] of [requireKeysOrPrompt], lines 320-330. *)
Definition missing_keys (feature : Feature) (keys : Keys) : list jsstring :=
  let need (k : jsstring) (name : jsstring) : list jsstring :=
    if truthy k then [] else [name] in
  match feature with
  | mic =>
      need (AAI keys) (js "AssemblyAI") ++ need (GEMINI keys) (js "Gemini")
        ++ need (MURF keys) (js "Murf")
  | tts => need (MURF keys) (js "Murf")
  | echo => need (MURF keys) (js "Murf")
  end.

(** [requireKeysOrPrompt(feature)], lines 318-349. *)
Definition requireKeysOrPrompt (feature : Feature) (keys : Keys)
    (st : State) : State * bool :=
  match missing_keys feature keys with
  | [] => (emit HidePrompt st, true)
  | missing => (emit (PromptForKeys missing) st, false)
  end.

(** [setMicState(active)], lines 362-379. *)
Definition setMicState (active : bool) (st : State) : State :=
  let st1 :=
    with_stream
      (fun s => mkStream (streamWS s) (sockets s) (streamMedia s)
                         (tracksLive s) (streaming s) active (capturing s))
      st in
  let st2 :=
    set_status (if active then js "Listening" ++ [ELLIPSIS] else []) st1 in
  emit (UiSound active) st2.

(** The ready state after [close()]: a socket that is connecting or
    open starts closing, another one stays as it is. *)
Definition closed_by_script (r : ReadyState) : ReadyState :=
  match r with
  | CONNECTING | OPEN => CLOSING
  | _ => r
  end.

(** [ws.close()] on the socket [id]. *)
Definition close_socket (id : nat) (st : State) : State :=
  emit (WsClose id)
    (with_stream
       (fun s => mkStream (streamWS s) (alter closed_by_script id (sockets s))
                   (streamMedia s) (tracksLive s) (streaming s)
                   (isMicRecording s) (capturing s)) st).

(** [streamMedia && streamMedia.getTracks().forEach(t => t.stop())]. *)
Definition stop_tracks (st : State) : State :=
  match streamMedia (stream st) with
  | Some m =>
      emit StopTracks
        (with_stream
           (fun s => mkStream (streamWS s) (sockets s) (streamMedia s)
                       (<[m := false]> (tracksLive s)) (streaming s)
                       (isMicRecording s) (capturing s)) st)
  | None => st
  end.

(** How [navigator.mediaDevices.getUserMedia] settles. *)
Inductive Permission :=
| Granted
| Denied (message : jsstring).

(** What the browser decides during one call of [toggleMic]: the keys
    on the page, how the permission request settles, and the ready
    state the new socket has reached by then. *)
Record MicEnv := mkMicEnv {
  keys : Keys;
  permission : Permission;
  socketAtSettle : ReadyState
}.

(** The [catch] of [toggleMic], lines 617-622. *)
Definition startFailed (message : jsstring) (st : State) : State :=
  let st1 := emit (Console (js "[stream] start failed")) st in
  let st2 := set_status (js "Mic error: " ++ message) st1 in
  let st3 :=
    match streamWS (stream st2) with
    | Some id => close_socket id st2
    | None => st2
    end in
  stop_tracks st3.

(** The branch [if (streaming)] of [toggleMic], lines 500-509.
    [streamRecorder] is never assigned and stays [null]. *)
Definition stopStreaming (st : State) : State :=
  let st1 := stop_tracks st in
  let st2 :=
    match streamWS (stream st1), readyState st1 with
    | Some id, Some OPEN => close_socket id st1
    | _, _ => st1
    end in
  let st3 :=
    with_stream
      (fun s => mkStream (streamWS s) (sockets s) (streamMedia s)
                         (tracksLive s) false (isMicRecording s)
                         (capturing s)) st2 in
  emit (Console (js "[stream] stopped")) (set_status [] (setMicState false st3)).

(** The [try] of [toggleMic], lines 510-616.  The handler it leaves on
    [streamWS.onclose] (lines 607-616) runs when the socket closes
    later and is not part of the call. *)
Definition startStreaming (env : MicEnv) (st : State) : State :=
  (* lines 511-515: the socket is created first *)
  let id := length (sockets (stream st)) in
  let st1 :=
    emit (NewWebSocket id)
      (with_stream
         (fun s => mkStream (Some id) (sockets s ++ [CONNECTING])
                            (streamMedia s) (tracksLive s) (streaming s)
                            (isMicRecording s) (capturing s)) st) in
  (* lines 518-520 *)
  let st2 := with_reco (fun _ => mkReconciler None [] []) st1 in
  (* line 580: the request, and the socket moving on while it waits *)
  let st3 :=
    with_stream
      (fun s => mkStream (streamWS s)
                         (<[id := socketAtSettle env]> (sockets s))
                         (streamMedia s) (tracksLive s) (streaming s)
                         (isMicRecording s) (capturing s))
      (emit GetUserMedia st2) in
  match permission env with
  | Denied message => startFailed message st3
  | Granted =>
      let m := length (tracksLive (stream st3)) in
      let st4 :=
        with_stream
          (fun s => mkStream (streamWS s) (sockets s) (Some m)
                             (tracksLive s ++ [true]) (streaming s)
                             (isMicRecording s) (capturing s)) st3 in
      (* lines 581-585 *)
      match audioContext (dom st4) with
      | AudioContextThrows message | NoAudioContext message =>
          startFailed message st4
      | AudioContextWorks =>
          let st5 :=
            emit NewCaptureGraph
              (with_stream
                 (fun s => mkStream (streamWS s) (sockets s) (streamMedia s)
                                    (tracksLive s) true (isMicRecording s)
                                    true) st4) in
          emit (Console (js "[stream] started"))
            (set_status (js "Streaming" ++ [ELLIPSIS]) (setMicState true st5))
      end
  end.

(** [toggleMic], lines 497-623. *)
Definition toggleMic (env : MicEnv) (st : State) : State :=
  let '(st1, ok) := requireKeysOrPrompt mic (keys env) st in
  if negb ok then st1
  else
    let st2 := unlockAudioIfNeeded st1 in
    if streaming (stream st2) then stopStreaming st2
    else startStreaming env st2.

(** ** States to run the script from *)

(** The closure variables as the script initialises them, on a page
    that has all its elements and an empty chat. *)
Definition initial : State :=
  mkState
    (mkDom (Some []) (Some []) true AudioContextWorks 1700000000000)
    (mkMurf false [] false true false)
    (mkGate false None)
    (mkReconciler None [] [])
    (mkStream None [] None [] false false false)
    [].

(** The effects of a run from [st] to [st']: what the log has gained. *)
Definition since (st st' : State) : list Effect :=
  skipn (length (log st)) (log st').

Definition play_calls (l : list Effect) : nat :=
  length (List.filter (fun e => match e with AudioPlay => true | _ => false end) l).
Definition delays (l : list Effect) : list Z :=
  omap (fun e => match e with SetTimeout ms => Some ms | _ => None end) l.
Definition sources_set (l : list Effect) : list jsstring :=
  omap (fun e => match e with AudioSetSrc u => Some u | _ => None end) l.

(** A text message that is not JSON. *)
Definition partial (raw : jsstring) : MessageEvent :=
  mkMessage (Text raw) NotJson.

(** The rule of the assembler for a fragment that is not the first of
    its session, in the words of the specification: a fragment that
    begins with the signature and has at least 44 bytes loses its
    first 44 bytes, any other fragment is kept whole. *)
Definition strip_repeated_header (fragment : bytes) : bytes :=
  if starts_with_RIFF fragment && (44 <=? length fragment)%nat
  then skipn 44 fragment
  else fragment.

(** A 44-byte header for the examples: the signature, then zeros. *)
Definition riff_header : bytes :=
  map byte.of_Z [0x52; 0x49; 0x46; 0x46] ++ repeat Byte.x00 40.

(** ** Words for the statements about the reconciler *)

(** A message that takes the raw-text path with the text [raw]: a text
    frame that is no JSON, or JSON of no recognised type. *)
Definition raw_event (ev : MessageEvent) (raw : jsstring) : Prop :=
  data ev = Text raw /\ (parsed ev = NotJson \/ parsed ev = Unrecognized).

(** The partial on display after the raw text [raw], when [shown] was
    on display before: a text that is white space only is ignored. *)
Definition shows (shown raw : jsstring) : jsstring :=
  if truthy (trim raw) then normalizeTranscript raw else shown.

(** No utterance is in progress and the chat holds [base]. *)
Definition Idle (base : list Row) (st : State) : Prop :=
  liveRow (reco st) = None /\ lastPartial (reco st) = []
  /\ chatMessages (dom st) = Some base.

(** An utterance is in progress: its row comes after [base] and shows
    the last partial, [shown]. *)
Definition Live (base : list Row) (shown : jsstring) (st : State) : Prop :=
  liveRow (reco st) = Some (length base) /\ lastPartial (reco st) = shown
  /\ chatMessages (dom st) = Some (base ++ [mkRow user shown false None]).

(** The row [addMsg('agent', llm_response, {})] adds at a turn end. *)
Definition agent_rows (llm_response : option jsstring) : list Row :=
  if present llm_response
  then [mkRow agent (bubble_text agent llm_response) false None]
  else [].

(** ** Words for the statements about the microphone toggle *)

(** The effects of a streaming session on the socket, the microphone,
    the capture graph and the status line. *)
Definition is_session_effect (e : Effect) : bool :=
  match e with
  | SetStatus _ | NewWebSocket _ | WsClose _ | WsSend _ _ | GetUserMedia
  | StopTracks | NewCaptureGraph | UiSound _ => true
  | _ => false
  end.

Definition session_trace (l : list Effect) : list Effect :=
  List.filter is_session_effect l.

(** A page on which the three keys of the microphone are filled in,
    and a browser in which the user refuses the microphone while the
    socket has had time to open. *)
Definition filled_keys : Keys :=
  mkKeys (js "g") (js "a") (js "m") [] [].


(** ** Words for the statements about the normaliser *)

(** A text in which white space occurs only as single U+0020 and no
    unit of the second class occurs; [in_run] tells that the unit
    before the text is white space. *)
Fixpoint collapsed (in_run : bool) (t : jsstring) : bool :=
  match t with
  | [] => true
  | c :: r =>
      if is_space c
      then (c =? SP) && negb in_run && collapsed true r
      else negb (is_zero_width c) && collapsed false r
  end.

(** U+200B, U+200C or U+200D: the zero-width units that are not white
    space. *)
Definition is_joiner (c : code_unit) : bool :=
  (0x200B <=? c) && (c <=? 0x200D).

(** ** Words for the statements about the decoder *)

(** The buffers given to [decodeAudioData], in program order. *)
Definition decoded_buffers (l : list Effect) : list bytes :=
  omap (fun e => match e with DecodeAudioData buf => Some buf | _ => None end) l.

(** The window can give the assembler an audio context: it has one
    already, or the constructor works. *)
Definition audio_available (st : State) : bool :=
  murfAudioCtx (murf st) || constructs (audioContext (dom st)).

(** A [tts_chunk] message whose payload decodes to [decoded]. *)
Definition chunk_event (ev : MessageEvent) (decoded : bytes) : Prop :=
  exists b64, parsed ev = TtsChunk b64 /\ atob b64 = Some decoded.

(** ** More words for the statements about the reconciler *)

(** The text a turn end leaves in the live row that showed [shown]:
    the normalised transcript of the event when it has one that is not
    empty, else what the row showed. *)
Definition final_text (transcript : option jsstring) (shown : jsstring)
    : jsstring :=
  match transcript with
  | Some t =>
      if truthy t && truthy (normalizeTranscript t)
      then normalizeTranscript t else shown
  | None => shown
  end.

(** Two states in which the reconciler sees the same thing: its own
    variables and the rows of the chat. *)
Definition same_view (st st' : State) : Prop :=
  reco st' = reco st /\ chatMessages (dom st') = chatMessages (dom st).

(** The reconciler is in order and has kept the rows [base]: the chat
    holds [base] and more rows after it, and either no utterance is in
    progress or the last row is the live one, showing the last
    partial. *)
Definition Reconciled (base : list Row) (st : State) : Prop :=
  exists more,
    Idle (base ++ more) st \/ exists shown, Live (base ++ more) shown st.

(** ** More words for the statements about the microphone toggle *)

(** The socket a stop closes: the current one, when it is open. *)
Definition open_socket (st : State) : option nat :=
  match streamWS (stream st), readyState st with
  | Some id, Some OPEN => Some id
  | _, _ => None
  end.


(** ** Runs of the script *)

(** What the page delivers to the script once it is loaded, for the
    handlers modelled here: a click on the microphone button or the
    key [m] (lines 628 and 643), a message on the current socket, a
    quantum of the capture graph, the two callbacks of
    [decodeAudioData] and the end of the source the first one
    starts. *)
Inductive Event :=
| MicToggle (env : MicEnv)
| SocketMessage (ev : MessageEvent)
| AudioProcess (inputData : list Sample)
| AudioDecoded
| AudioDecodeFailed
| SourceEnded.

(** The state a handler leaves: an exception that escapes a handler
    ends it and undoes nothing. *)
Definition after (c : Completion) : State :=
  match c with Normal st | Throw st => st end.

(** One event.  The success callback of [decodeAudioData] begins with
    [murfAudioCtx.createBufferSource()] (line 112), which raises when
    a source that ended in the meantime has set [murfAudioCtx] to
    [null]. *)
Definition handle (e : Event) (st : State) : State :=
  match e with
  | MicToggle env => toggleMic env st
  | SocketMessage ev => onmessage ev st
  | AudioProcess inputData => after (onaudioprocess inputData st)
  | AudioDecoded => if murfAudioCtx (murf st) then onDecoded st else st
  | AudioDecodeFailed => onDecodeError st
  | SourceEnded => onSourceEnded st
  end.

(** Events are handled one after the other. *)
Definition run (events : list Event) (st : State) : State :=
  fold_left (fun s e => handle e s) events st.

(** The effects on the element [agentAudio]. *)
Definition is_agent_audio_effect (e : Effect) : bool :=
  match e with
  | AudioPause | AudioSetSrc _ | AudioPlay => true
  | _ => false
  end.

Definition agent_audio_trace (l : list Effect) : list Effect :=
  List.filter is_agent_audio_effect l.

(** From [st] to [st'] the element [agentAudio] was left alone, the
    pending URL was not touched and the gate was not locked again. *)
Definition Quiet (st st' : State) : Prop :=
  pendingAutoPlayUrl (gate st') = pendingAutoPlayUrl (gate st)
  /\ (audioUnlocked (gate st) = true -> audioUnlocked (gate st') = true)
  /\ exists l, log st' = log st ++ l /\ agent_audio_trace l = [].

(** The first-fragment flag is set exactly when the buffer is
    empty. *)
Definition flag_tells_empty (m : Murf) : Prop :=
  murfFirstChunk m = true <-> murfAudioChunks m = [].

(** ** The keys of the settings dialog, lines 216-221 and 278-316 *)

From stdpp Require gmap.

(** The fields of the dialog and the storage of the tab.
    [sessionStorage] is [None] in a browser that refuses access to
    it: every call on it raises.  A field is [None] when the page has
    no such element, and otherwise holds its [value]. *)
Record Settings := mkSettings {
  sessionId : jsstring;
  sessionStorage : option (gmap.gmap jsstring jsstring);
  keyGemini : option jsstring;
  keyAAI : option jsstring;
  keyMurf : option jsstring;
  keyTavily : option jsstring;
  keyOW : option jsstring
}.

(** [`KEY_${sessionId}_${name}`]. *)
Definition storage_key (sid name : jsstring) : jsstring :=
  js "KEY_" ++ sid ++ js "_" ++ name.

(** [a || b] on strings. *)
Definition or_else (a b : jsstring) : jsstring :=
  if truthy a then a else b.

(** [readSessionKey(name)], lines 216-218: [getItem] gives [null] for
    a key that is not stored, and the [catch] gives the empty
    string. *)
Definition readSessionKey (name : jsstring) (s : Settings) : jsstring :=
  match sessionStorage s with
  | Some items =>
      match items !! storage_key (sessionId s) name with
      | Some v => or_else v []
      | None => []
      end
  | None => []
  end.

(** [writeSessionKey(name, value)], lines 219-221, for a [value] that
    is a string, as it is at every call. *)
Definition writeSessionKey (name value : jsstring) (s : Settings)
    : Settings :=
  match sessionStorage s with
  | Some items =>
      mkSettings (sessionId s)
        (Some (<[storage_key (sessionId s) name := value]> items))
        (keyGemini s) (keyAAI s) (keyMurf s) (keyTavily s) (keyOW s)
  | None => s
  end.

(** [(field && field.value.trim()) || '']. *)
Definition field_key (field : option jsstring) : jsstring :=
  match field with
  | Some value => or_else (trim value) []
  | None => []
  end.

(** The prefill of lines 270-276: every field the page has takes the
    key stored for the session. *)
Definition prefill (s : Settings) : Settings :=
  let fill name field :=
    match field with
    | Some _ => Some (readSessionKey name s)
    | None => None
    end in
  mkSettings (sessionId s) (sessionStorage s)
    (fill (js "GEMINI") (keyGemini s)) (fill (js "AAI") (keyAAI s))
    (fill (js "MURF") (keyMurf s)) (fill (js "TAVILY") (keyTavily s))
    (fill (js "OW") (keyOW s)).

(** The object [payload] of [saveSettings], lines 279-285. *)
Record Payload := mkPayload {
  GEMINI_API_KEY : jsstring;
  ASSEMBLYAI_API_KEY : jsstring;
  MURF_API_KEY : jsstring;
  TAVILY_API_KEY : jsstring;
  OPENWEATHER_API_KEY : jsstring
}.

(** [saveSettings], lines 278-291: what runs before the request to
    the server is sent.  The result is the new settings and the
    payload of the request. *)
Definition saveSettings (s : Settings) : Settings * Payload :=
  let payload :=
    mkPayload (field_key (keyGemini s)) (field_key (keyAAI s))
              (field_key (keyMurf s)) (field_key (keyTavily s))
              (field_key (keyOW s)) in
  let s1 := writeSessionKey (js "GEMINI") (GEMINI_API_KEY payload) s in
  let s2 := writeSessionKey (js "AAI") (ASSEMBLYAI_API_KEY payload) s1 in
  let s3 := writeSessionKey (js "MURF") (MURF_API_KEY payload) s2 in
  let s4 := writeSessionKey (js "TAVILY") (TAVILY_API_KEY payload) s3 in
  let s5 := writeSessionKey (js "OW") (OPENWEATHER_API_KEY payload) s4 in
  (s5, payload).

(** [getCurrentKeys()], lines 308-316. *)
Definition getCurrentKeys (s : Settings) : Keys :=
  let current name field := or_else (readSessionKey name s) (field_key field) in
  mkKeys (current (js "GEMINI") (keyGemini s)) (current (js "AAI") (keyAAI s))
         (current (js "MURF") (keyMurf s)) (current (js "TAVILY") (keyTavily s))
         (current (js "OW") (keyOW s)).

(** The names under which keys are stored. *)
Definition key_names : list jsstring :=
  [js "GEMINI"; js "AAI"; js "MURF"; js "TAVILY"; js "OW"].

(** The page of the session [sid] in the same tab: the same storage
    under another session id. *)
Definition in_session (sid : jsstring) (s : Settings) : Settings :=
  mkSettings sid (sessionStorage s) (keyGemini s) (keyAAI s) (keyMurf s)
             (keyTavily s) (keyOW s).

(** What a field holds once trimmed; nothing for a field the page
    does not have. *)
Definition typed (field : option jsstring) : jsstring :=
  match field with
  | Some value => trim value
  | None => []
  end.

(** A storage that holds nothing. *)
Definition no_items : gmap.gmap jsstring jsstring := empty.

(** A key is at hand when it is stored for the session or typed in
    its field. *)
Definition at_hand (name : jsstring) (field : option jsstring)
    (s : Settings) : bool :=
  truthy (readSessionKey name s) || truthy (typed field).

(** A page that has no chat element, on which no row is live. *)
Definition no_chat (st : State) : Prop :=
  chatMessages (dom st) = None /\ liveRow (reco st) = None.

(** * Properties *)

(** ** [DataView] reads after writes *)

Lemma setUint32_Some buf off v buf' :
  setUint32 buf off v = Some buf' ->
  (off + 4 <= length buf)%nat
  /\ buf' = firstn off buf ++ le_split 4 v ++ skipn (off + 4) buf.
Proof.
  unfold setUint32.
  destruct (Nat.leb_spec (off + 4) (length buf)); [|discriminate].
  intros Heq. split; [assumption | congruence].
Qed.

Lemma length_setUint32 buf off v buf' :
  setUint32 buf off v = Some buf' -> length buf' = length buf.
Proof.
  intros [Hfit ->]%setUint32_Some.
  rewrite !length_app, length_firstn, length_le_split, length_skipn. lia.
Qed.

Lemma setUint32_fits buf off v :
  (off + 4 <= length buf)%nat -> exists buf', setUint32 buf off v = Some buf'.
Proof.
  intros H. unfold setUint32.
  destruct (Nat.leb_spec (off + 4) (length buf)); [eauto | lia].
Qed.

Lemma getUint32_setUint32 buf off v buf' :
  setUint32 buf off v = Some buf' -> getUint32 buf' off = v mod 2 ^ 32.
Proof.
  intros [Hfit ->]%setUint32_Some. unfold getUint32.
  rewrite skipn_app, skipn_all2 by (rewrite length_firstn; lia).
  rewrite length_firstn, Nat.min_l by lia.
  replace (off - off)%nat with 0%nat by lia. rewrite skipn_O. cbn [app].
  rewrite firstn_app, length_le_split.
  rewrite firstn_all2 by (rewrite length_le_split; lia).
  replace (4 - 4)%nat with 0%nat by lia. rewrite firstn_O, app_nil_r.
  apply (le_combine_split 4).
Qed.

Lemma getUint32_setUint32_below buf off v buf' off' :
  setUint32 buf off v = Some buf' -> (off' + 4 <= off)%nat ->
  getUint32 buf' off' = getUint32 buf off'.
Proof.
  intros [Hfit ->]%setUint32_Some Hlt. unfold getUint32. f_equal.
  rewrite !firstn_skipn_comm. f_equal.
  rewrite firstn_app, length_firstn, Nat.min_l by lia.
  replace (off' + 4 - off)%nat with 0%nat by lia.
  rewrite firstn_O, app_nil_r, firstn_firstn. f_equal. lia.
Qed.

(** ** The two size fields of the assembled buffer *)

Lemma fullAudio_patched first rest :
  (WAV_HEADER <= length first)%nat -> starts_with_RIFF first = true ->
  exists buf,
    fullAudio (first :: rest) = Some buf
    /\ length buf = length (concat (first :: rest))
    /\ getUint32 buf 4 =
         (36 + (Z.of_nat (length (concat (first :: rest))) - 44)) mod 2 ^ 32
    /\ getUint32 buf 40 =
         (Z.of_nat (length (concat (first :: rest))) - 44) mod 2 ^ 32.
Proof.
  intros Hlen Hriff. unfold fullAudio, WAV_HEADER in *.
  destruct (Nat.leb_spec 44 (length first)) as [_|]; [|lia].
  rewrite Hriff. cbn [andb].
  set (full := concat (first :: rest)).
  assert (Hfull : (44 <= length full)%nat).
  { subst full. cbn [concat]. rewrite length_app. lia. }
  set (dataSize := Z.of_nat (length full) - 44).
  destruct (setUint32_fits full 4 (36 + dataSize)) as [full1 H1]; [lia|].
  rewrite H1.
  pose proof (length_setUint32 _ _ _ _ H1) as L1.
  destruct (setUint32_fits full1 40 dataSize) as [buf H2]; [lia|].
  exists buf. split; [exact H2|].
  split; [rewrite (length_setUint32 _ _ _ _ H2); exact L1|].
  split.
  - rewrite (getUint32_setUint32_below _ _ _ _ 4%nat H2) by lia.
    apply (getUint32_setUint32 _ _ _ _ H1).
  - apply (getUint32_setUint32 _ _ _ _ H2).
Qed.

(** C2.  When the first buffered fragment has at least 44 bytes and
    begins with the signature RIFF, [finalizeMurfStream] hands the
    decoder a buffer of the total length L of the fragments in which
    the little-endian field at offset 4 holds 36 + (L - 44) and the
    one at offset 40 holds L - 44.  A field has four bytes, hence
    L < 2^32. *)
Theorem finalizeMurfStream_patches_sizes (st : State) (first : bytes)
    (rest : list bytes) :
  murfAudioCtx (murf st) = true ->
  murfAudioChunks (murf st) = first :: rest ->
  (44 <= length first)%nat ->
  starts_with_RIFF first = true ->
  Z.of_nat (length (concat (first :: rest))) < 2 ^ 32 ->
  exists buf st',
    finalizeMurfStream st = Normal st'
    /\ log st' = log st ++ [DecodeAudioData buf]
    /\ murfPlaying (murf st') = false
    /\ Z.of_nat (length buf) = Z.of_nat (length (concat (first :: rest)))
    /\ getUint32 buf 4 = 36 + (Z.of_nat (length (concat (first :: rest))) - 44)
    /\ getUint32 buf 40 = Z.of_nat (length (concat (first :: rest))) - 44.
Proof.
  intros Hctx Hchunks Hlen Hriff Hsmall.
  destruct (fullAudio_patched first rest Hlen Hriff)
    as (buf & Hbuf & Hl & H4 & H40).
  assert (Hbig : (44 <= length (concat (first :: rest)))%nat).
  { cbn [concat]. rewrite length_app. lia. }
  assert (Hrun : finalizeMurfStream st =
    Normal (emit (DecodeAudioData buf)
              (with_murf (fun m => mkMurf (murfAudioCtx m) (murfAudioChunks m)
                                          false (murfFirstChunk m)
                                          (murfSourceNode m)) st))).
  { unfold finalizeMurfStream, with_murf.
    cbn [murf murfAudioCtx murfAudioChunks].
    rewrite Hctx, Hchunks. cbn [negb orb length Nat.eqb].
    now rewrite Hbuf. }
  exists buf. eexists. split; [exact Hrun|].
  cbn [emit with_murf log murf murfPlaying].
  repeat split; try (rewrite ?Hl; reflexivity).
  - rewrite H4. apply Z.mod_small. lia.
  - rewrite H40. apply Z.mod_small. lia.
Qed.

Lemma finalizeMurfStream_patches_sizes_witness :
  exists buf st',
    finalizeMurfStream
      (with_murf (fun _ => mkMurf true [riff_header ++ [Byte.x07]; [Byte.x09]]
                                  true false false) initial) = Normal st'
    /\ log st' = [DecodeAudioData buf]
    /\ murfPlaying (murf st') = false
    /\ Z.of_nat (length buf) = 46
    /\ getUint32 buf 4 = 38
    /\ getUint32 buf 40 = 2.
Proof.
  exact (finalizeMurfStream_patches_sizes
           (with_murf (fun _ => mkMurf true [riff_header ++ [Byte.x07]; [Byte.x09]]
                                       true false false) initial)
           (riff_header ++ [Byte.x07]) [[Byte.x09]]
           eq_refl eq_refl ltac:(vm_compute; lia) eq_refl ltac:(vm_compute; reflexivity)).
Defined.

(** ** The transcript normaliser *)

Example normalize_hello :
  normalizeTranscript (js "  hello   world ") = js "hello world".
Proof. reflexivity. Qed.

(** C4.  The normaliser is not idempotent: on [a], space, U+200B,
    space, [b] the first pass leaves two spaces side by side (the
    zero-width unit between them is removed after the runs were
    collapsed) and the second pass joins them. *)
Theorem normalizeTranscript_not_idempotent :
  let s := js "a " ++ [ZWSP] ++ js " b" in
  normalizeTranscript s = js "a  b"
  /\ normalizeTranscript (normalizeTranscript s) = js "a b"
  /\ normalizeTranscript (normalizeTranscript s) <> normalizeTranscript s.
Proof. repeat split. discriminate. Qed.


(** ** Trimming *)

Lemma truthy_false (s : jsstring) : truthy s = false -> s = [].
Proof. destruct s; [reflexivity | discriminate]. Qed.


Lemma trim_start_head (t : jsstring) :
  trim_start t = [] \/ exists c r, trim_start t = c :: r /\ is_space c = false.
Proof.
  induction t as [|c r IH]; [now left|]. cbn [trim_start].
  destruct (is_space c) eqn:Hc; [exact IH|]. right. now exists c, r.
Qed.

Lemma trim_end_cons (c : Z) (r : jsstring) :
  is_space c = false -> trim_end (c :: r) = c :: trim_end r.
Proof. intros Hc. cbn [trim_end]. rewrite Hc. now destruct (trim_end r). Qed.

Lemma trim_end_idempotent (t : jsstring) : trim_end (trim_end t) = trim_end t.
Proof.
  induction t as [|c r IH]; [reflexivity|]. cbn [trim_end].
  destruct (trim_end r) as [|d r'] eqn:Hr.
  - destruct (is_space c) eqn:Hc; [reflexivity|]. cbn [trim_end]. now rewrite Hc.
  - change (trim_end (c :: d :: r')) with
      (match trim_end (d :: r') with
       | [] => if is_space c then [] else [c]
       | x => c :: x
       end).
    now rewrite IH.
Qed.

Lemma trim_idempotent (t : jsstring) : trim (trim t) = trim t.
Proof.
  unfold trim. destruct (trim_start_head t) as [->|(c & r & -> & Hc)];
    [reflexivity|].
  rewrite (trim_end_cons c r Hc). cbn [trim_start]. rewrite Hc.
  rewrite (trim_end_cons c _ Hc). now rewrite trim_end_idempotent.
Qed.

Lemma trim_normalizeTranscript (t : jsstring) :
  trim (normalizeTranscript t) = normalizeTranscript t.
Proof. apply trim_idempotent. Qed.

Lemma trim_end_nil (t : jsstring) :
  trim_end t = [] -> forallb is_space t = true.
Proof.
  induction t as [|c r IH]; [reflexivity|]. cbn [trim_end forallb].
  destruct (trim_end r); [|discriminate].
  destruct (is_space c); [|discriminate]. intros _. now apply IH.
Qed.

Lemma trim_start_spaces (t : jsstring) :
  forallb is_space (trim_start t) = true -> forallb is_space t = true.
Proof.
  induction t as [|c r IH]; [reflexivity|]. cbn [trim_start].
  destruct (is_space c) eqn:Hc; [|auto]. cbn [forallb]. now rewrite Hc.
Qed.

Lemma replace_ws_runs_spaces (t : jsstring) :
  forallb is_space t = true ->
  replace_ws_runs true t = []
  /\ (replace_ws_runs false t = [] \/ replace_ws_runs false t = [SP]).
Proof.
  induction t as [|c r IH]; [now split; [|left]|]. cbn [forallb].
  intros [Hc Hr]%andb_prop. destruct (IH Hr) as [IH1 _].
  cbn [replace_ws_runs]. rewrite Hc, IH1. split; [reflexivity | now right].
Qed.

(** A text the raw path ignores normalises to the empty string. *)
Lemma normalizeTranscript_blank (t : jsstring) :
  truthy (trim t) = false -> normalizeTranscript t = [].
Proof.
  intros H%truthy_false. unfold trim in H.
  apply trim_end_nil, trim_start_spaces, replace_ws_runs_spaces in H.
  unfold normalizeTranscript. destruct H as [_ [-> | ->]]; reflexivity.
Qed.

Lemma truthy_true (s : jsstring) : s <> [] -> truthy s = true.
Proof. destruct s; [congruence | reflexivity]. Qed.


(** *** Where the normaliser is idempotent *)

Lemma collapsed_weaken (t : jsstring) :
  collapsed true t = true -> collapsed false t = true.
Proof.
  destruct t as [|c r]; [reflexivity|]. cbn [collapsed].
  destruct (is_space c); [|auto]. rewrite andb_false_r. discriminate.
Qed.

Lemma not_space_not_zero_width (c : Z) :
  is_space c = false -> is_joiner c = false -> is_zero_width c = false.
Proof.
  unfold is_space, is_zero_width, is_joiner. intros Hs Hj. rewrite Hj.
  cbn [orb]. rewrite !orb_false_iff in Hs. tauto.
Qed.

Lemma replace_ws_runs_collapsed (t : jsstring) : forall in_run,
  forallb (fun c => negb (is_joiner c)) t = true ->
  collapsed in_run (replace_ws_runs in_run t) = true.
Proof.
  induction t as [|c r IH]; intros in_run H; [reflexivity|].
  cbn [forallb] in H. apply andb_prop in H as [Hc Hr].
  cbn [replace_ws_runs]. destruct (is_space c) eqn:Hs.
  - destruct in_run; [now apply IH|]. cbn [collapsed].
    change (is_space SP) with true. cbn. now apply IH.
  - cbn [collapsed]. rewrite Hs.
    rewrite not_space_not_zero_width by
      (auto; now destruct (is_joiner c)).
    cbn. now apply IH.
Qed.

Lemma collapsed_replace_ws_runs (t : jsstring) : forall in_run,
  collapsed in_run t = true -> replace_ws_runs in_run t = t.
Proof.
  induction t as [|c r IH]; intros in_run H; [reflexivity|].
  cbn [collapsed] in H. cbn [replace_ws_runs].
  destruct (is_space c).
  - apply andb_prop in H as [[Hc Hrun]%andb_prop Hr].
    destruct in_run; [discriminate|].
    apply Z.eqb_eq in Hc. subst c. f_equal. now apply IH.
  - apply andb_prop in H as [_ Hr]. f_equal. now apply IH.
Qed.

Lemma collapsed_remove_zero_width (t : jsstring) : forall in_run,
  collapsed in_run t = true -> remove_zero_width t = t.
Proof.
  induction t as [|c r IH]; intros in_run H; [reflexivity|].
  cbn [collapsed] in H. cbn [remove_zero_width].
  destruct (is_space c).
  - apply andb_prop in H as [[Hc _]%andb_prop Hr].
    apply Z.eqb_eq in Hc. subst c. change (is_zero_width SP) with false.
    cbv iota. f_equal. now apply (IH true).
  - apply andb_prop in H as [Hz Hr]. apply negb_true_iff in Hz.
    rewrite Hz. f_equal. now apply (IH false).
Qed.

Lemma collapsed_trim_start (t : jsstring) :
  collapsed false t = true -> collapsed false (trim_start t) = true.
Proof.
  induction t as [|c r IH]; [reflexivity|]. intros H. cbn [trim_start].
  destruct (is_space c) eqn:Hs; [|exact H].
  cbn [collapsed] in H. rewrite Hs in H.
  apply andb_prop in H as [_ Hr]. now apply IH, collapsed_weaken.
Qed.

Lemma collapsed_trim_end (t : jsstring) : forall in_run,
  collapsed in_run t = true -> collapsed in_run (trim_end t) = true.
Proof.
  induction t as [|c r IH]; intros in_run H; [reflexivity|].
  cbn [collapsed] in H. cbn [trim_end].
  destruct (is_space c) eqn:Hs.
  - apply andb_prop in H as [H1 Hr]. specialize (IH true Hr).
    destruct (trim_end r) as [|d r']; [reflexivity|].
    cbn [collapsed]. rewrite Hs, H1. exact IH.
  - apply andb_prop in H as [Hz Hr]. specialize (IH false Hr).
    destruct (trim_end r) as [|d r'].
    + cbn [collapsed]. now rewrite Hs, Hz.
    + cbn [collapsed]. rewrite Hs, Hz. exact IH.
Qed.

(** X1.  On a text without U+200B, U+200C and U+200D a second pass of
    the normaliser changes nothing: the second replacement finds
    nothing to delete (U+FEFF is white space and has become a space
    already), and the result has single spaces only. *)
Theorem normalizeTranscript_idempotent_without_joiners (t : jsstring) :
  forallb (fun c => negb (is_joiner c)) t = true ->
  normalizeTranscript (normalizeTranscript t) = normalizeTranscript t.
Proof.
  intros H. pose proof (replace_ws_runs_collapsed t false H) as Hc.
  assert (Hn : normalizeTranscript t = trim (replace_ws_runs false t)).
  { unfold normalizeTranscript.
    now rewrite (collapsed_remove_zero_width _ false Hc). }
  assert (Hcn : collapsed false (normalizeTranscript t) = true).
  { rewrite Hn. unfold trim.
    now apply collapsed_trim_end, collapsed_trim_start. }
  unfold normalizeTranscript at 1.
  rewrite (collapsed_replace_ws_runs _ false Hcn).
  rewrite (collapsed_remove_zero_width _ false Hcn).
  apply trim_normalizeTranscript.
Qed.

Lemma normalizeTranscript_idempotent_witness :
  normalizeTranscript (normalizeTranscript (js "  good   morning "))
  = normalizeTranscript (js "  good   morning ").
Proof.
  exact (normalizeTranscript_idempotent_without_joiners
           (js "  good   morning ") eq_refl).
Defined.


(** ** Chat bubbles *)

(** C10, as stated, fails: a text with white space around it is not
    shown as given. *)
Lemma addMsg_text_as_given_counterexample :
  chatMessages (dom (fst (addMsg agent (Some (js "  hi ")) None initial)))
  = Some [mkRow agent (js "hi") false None]
  /\ js "hi" <> js "  hi ".
Proof. split; [reflexivity | discriminate]. Qed.

(** C10, amended.  On a page with a chat, [addMsg(role, text)] appends
    one row and returns it; its bubble shows the placeholder of the
    role when [text] is null, empty or white space only, and otherwise
    [text] without its leading and trailing white space. *)
Theorem addMsg_bubble_text (r : Role) (text audioUrl : option jsstring)
    (st : State) (rows : list Row) :
  chatMessages (dom st) = Some rows ->
  exists row,
    chatMessages (dom (fst (addMsg r text audioUrl st))) = Some (rows ++ [row])
    /\ snd (addMsg r text audioUrl st) = Some (length rows)
    /\ role row = r
    /\ textContent row =
         match text with
         | None => placeholder r
         | Some t => if truthy (trim t) then trim t else placeholder r
         end
    /\ placeholder user = js "[Unrecognized]"
    /\ placeholder agent = js "[No response]".
Proof.
  intros Hrows. unfold addMsg. rewrite Hrows. eexists.
  cbn [fst snd with_dom dom chatMessages]. split; [reflexivity|].
  cbn [role textContent]. repeat split.
  unfold bubble_text. destruct text as [t|]; [|reflexivity].
  destruct (truthy t) eqn:Ht; [reflexivity|].
  apply truthy_false in Ht. now subst t.
Qed.

Lemma addMsg_bubble_text_witness :
  exists row,
    chatMessages (dom (fst (addMsg user (Some (js " ")) None initial)))
    = Some ([] ++ [row])
    /\ snd (addMsg user (Some (js " ")) None initial) = Some 0%nat
    /\ role row = user
    /\ textContent row = js "[Unrecognized]"
    /\ placeholder user = js "[Unrecognized]"
    /\ placeholder agent = js "[No response]".
Proof.
  exact (addMsg_bubble_text user (Some (js " ")) None initial [] eq_refl).
Defined.

(** ** The assembler under the message handler *)

(** Writing the status line leaves the rest of the state alone. *)
Lemma murf_set_status s st : murf (set_status s st) = murf st.
Proof. unfold set_status. now destruct (llmStatus (dom st)). Qed.

Lemma reco_set_status s st : reco (set_status s st) = reco st.
Proof. unfold set_status. now destruct (llmStatus (dom st)). Qed.

Lemma chat_set_status s st :
  chatMessages (dom (set_status s st)) = chatMessages (dom st).
Proof. unfold set_status. now destruct (llmStatus (dom st)). Qed.

Create Rewrite HintDb status_frame.
#[local] Hint Rewrite murf_set_status reco_set_status chat_set_status
  : status_frame.

Lemma murf_addMsg r text url st : murf (fst (addMsg r text url st)) = murf st.
Proof. unfold addMsg. now destruct (chatMessages (dom st)). Qed.

Lemma murf_onPartial d st : murf (onPartial d st) = murf st.
Proof.
  unfold onPartial. destruct d as [raw|]; [|reflexivity].
  destruct (truthy (trim raw)); [|reflexivity].
  destruct (negb _); [|reflexivity].
  autorewrite with status_frame. cbn [with_reco reco liveRow].
  destruct (liveRow (reco st)); [reflexivity|].
  destruct (addMsg _ _ _ _) as [s live] eqn:E. cbn [with_reco murf].
  change s with (fst (s, live)). rewrite <- E. now rewrite murf_addMsg.
Qed.

(** What one [tts_chunk] message does to the assembler while it is
    accumulating: the decoded fragment is appended. *)
Lemma tts_chunk_appends ev b64 decoded st :
  parsed ev = TtsChunk b64 -> atob b64 = Some decoded ->
  murfPlaying (murf st) = true ->
  murf (onmessage ev st) =
  mkMurf (murfAudioCtx (murf st))
         (murfAudioChunks (murf st)
          ++ [if negb (murfFirstChunk (murf st))
                 && (WAV_HEADER <=? length decoded)%nat
                 && starts_with_RIFF decoded
              then skipn WAV_HEADER decoded else decoded])
         true false (murfSourceNode (murf st)).
Proof.
  intros Hp Ha Hplay. unfold onmessage. rewrite Hp, Hplay. cbn [negb].
  unfold pushMurfAudioChunk. rewrite Ha. cbn [with_murf murf].
  now rewrite Hplay.
Qed.

(** What it does when the assembler is idle: a session is begun and
    the fragment is its first. *)
Lemma tts_chunk_begins ev b64 decoded st :
  parsed ev = TtsChunk b64 -> atob b64 = Some decoded ->
  murfPlaying (murf st) = false ->
  murfAudioCtx (murf st) || constructs (audioContext (dom st)) = true ->
  murf (onmessage ev st) = mkMurf true [decoded] true false false.
Proof.
  intros Hp Ha Hplay Hctx. unfold onmessage. rewrite Hp, Hplay. cbn [negb].
  unfold initMurfStreamPlayback.
  replace (negb (murfAudioCtx (murf st)) && negb (constructs (audioContext (dom st))))
    with false
    by (destruct (murfAudioCtx (murf st)), (constructs (audioContext (dom st)));
        cbn in *; congruence).
  unfold pushMurfAudioChunk. rewrite Ha.
  cbn [with_murf murf]. rewrite murf_set_status.
  cbn [with_murf murf murfSourceNode murfAudioCtx murfAudioChunks
       murfPlaying murfFirstChunk negb andb app].
  now destruct (murfSourceNode (murf st)).
Qed.

(** C6.  A [tts_chunk] message that arrives while the assembler is
    accumulating resets nothing: the flag stays set, the fragments
    buffered so far stay where they are, in front of what the message
    adds, and the first-fragment flag does not go back to [true]. *)
Theorem tts_chunk_while_accumulating (ev : MessageEvent) (b64 : Base64)
    (st : State) :
  parsed ev = TtsChunk b64 ->
  murfPlaying (murf st) = true ->
  murfPlaying (murf (onmessage ev st)) = true
  /\ (exists added,
        murfAudioChunks (murf (onmessage ev st))
        = murfAudioChunks (murf st) ++ added
        /\ (length added <= 1)%nat)
  /\ (murfFirstChunk (murf st) = false ->
      murfFirstChunk (murf (onmessage ev st)) = false).
Proof.
  intros Hp Hplay. destruct (atob b64) as [decoded|] eqn:Ha.
  - rewrite (tts_chunk_appends ev b64 decoded st Hp Ha Hplay).
    cbn [murfPlaying murfAudioChunks murfFirstChunk].
    split; [reflexivity|]. split; [|reflexivity].
    eexists. split; [reflexivity|]. cbn. lia.
  - assert (Hm : murf (onmessage ev st) = murf st).
    { unfold onmessage. rewrite Hp, Hplay. cbn [negb].
      unfold pushMurfAudioChunk. rewrite Ha. apply murf_onPartial. }
    rewrite Hm. split; [exact Hplay|]. split; [|tauto].
    exists []. split; [now rewrite app_nil_r | cbn; lia].
Qed.

Lemma tts_chunk_while_accumulating_witness :
  let st := with_murf (fun _ => mkMurf true [riff_header] true false false)
              initial in
  let ev := mkMessage (Text []) (TtsChunk (mkBase64 [] (Some riff_header))) in
  murfPlaying (murf (onmessage ev st)) = true
  /\ (exists added,
        murfAudioChunks (murf (onmessage ev st)) = [riff_header] ++ added
        /\ (length added <= 1)%nat)
  /\ (false = false -> murfFirstChunk (murf (onmessage ev st)) = false).
Proof.
  exact (tts_chunk_while_accumulating
           (mkMessage (Text []) (TtsChunk (mkBase64 [] (Some riff_header))))
           (mkBase64 [] (Some riff_header))
           (with_murf (fun _ => mkMurf true [riff_header] true false false)
              initial)
           eq_refl eq_refl).
Defined.

Lemma strip_repeated_header_eq decoded :
  (if negb false && (WAV_HEADER <=? length decoded)%nat
      && starts_with_RIFF decoded
   then skipn WAV_HEADER decoded else decoded)
  = strip_repeated_header decoded.
Proof.
  unfold strip_repeated_header, WAV_HEADER. cbn [negb andb].
  now rewrite andb_comm.
Qed.

Lemma tts_chunks_append evs : forall fragments st,
  Forall2 (fun ev d => exists b64, parsed ev = TtsChunk b64
                                   /\ atob b64 = Some d) evs fragments ->
  murfPlaying (murf st) = true ->
  murfFirstChunk (murf st) = false ->
  murf (onmessages evs st) =
  mkMurf (murfAudioCtx (murf st))
         (murfAudioChunks (murf st) ++ map strip_repeated_header fragments)
         true false (murfSourceNode (murf st)).
Proof.
  induction evs as [|ev evs IH]; intros fragments st HF Hplay Hfirst.
  - inversion HF; subst. cbn. rewrite app_nil_r.
    destruct (murf st); cbn in *; congruence.
  - inversion HF as [|? d ? ds (b64 & Hp & Ha) HF']; subst.
    cbn [onmessages fold_left]. fold (onmessages evs (onmessage ev st)).
    pose proof (tts_chunk_appends ev b64 d st Hp Ha Hplay) as Hstep.
    rewrite Hfirst, strip_repeated_header_eq in Hstep.
    rewrite (IH ds (onmessage ev st) HF'); rewrite Hstep; try reflexivity.
    cbn [murfAudioCtx murfAudioChunks murfSourceNode map].
    now rewrite <- app_assoc.
Qed.

(** C3.  From an idle assembler, the [tts_chunk] messages of one
    session leave in the buffer the first fragment as decoded, and
    after it every later fragment in arrival order, without its first
    44 bytes when it begins with RIFF and has at least 44 bytes and
    unchanged otherwise; so the bytes of the buffer are the first
    fragment followed by the later payloads. *)
Theorem tts_chunks_assemble (evs : list MessageEvent) (first : bytes)
    (later : list bytes) (st : State) :
  Forall2 (fun ev d => exists b64, parsed ev = TtsChunk b64
                                   /\ atob b64 = Some d)
          evs (first :: later) ->
  murfPlaying (murf st) = false ->
  murfAudioCtx (murf st) || constructs (audioContext (dom st)) = true ->
  murfAudioChunks (murf (onmessages evs st))
  = first :: map strip_repeated_header later
  /\ concat (murfAudioChunks (murf (onmessages evs st)))
     = first ++ concat (map strip_repeated_header later)
  /\ (forall d, In d later ->
        starts_with_RIFF d = true -> (44 <= length d)%nat ->
        strip_repeated_header d = skipn 44 d
        /\ firstn 44 d ++ strip_repeated_header d = d
        /\ length (strip_repeated_header d) = (length d - 44)%nat)
  /\ (forall d, In d later ->
        starts_with_RIFF d = false \/ (length d < 44)%nat ->
        strip_repeated_header d = d).
Proof.
  intros HF Hplay Hctx.
  inversion HF as [|ev d evs' ds (b64 & Hp & Ha) HF']; subst.
  cbn [onmessages fold_left]. fold (onmessages evs' (onmessage ev st)).
  pose proof (tts_chunk_begins ev b64 first st Hp Ha Hplay Hctx) as Hstep.
  rewrite (tts_chunks_append evs' later (onmessage ev st) HF');
    rewrite Hstep; try reflexivity.
  cbn [murfAudioChunks app concat].
  split; [reflexivity|]. split; [reflexivity|]. split.
  - intros d _ Hr Hl. unfold strip_repeated_header. rewrite Hr.
    destruct (Nat.leb_spec 44 (length d)); [|lia]. cbn [andb].
    split; [reflexivity|]. split; [apply firstn_skipn|].
    apply length_skipn.
  - intros d _ [Hr|Hl]; unfold strip_repeated_header.
    + now rewrite Hr.
    + destruct (Nat.leb_spec 44 (length d)); [lia|]. now rewrite andb_false_r.
Qed.

Lemma tts_chunks_assemble_witness :
  murfAudioChunks
    (murf (onmessages
             [mkMessage (Text []) (TtsChunk (mkBase64 [] (Some (riff_header ++ [Byte.x07]))));
              mkMessage (Text []) (TtsChunk (mkBase64 [] (Some (riff_header ++ [Byte.x09]))))]
             initial))
  = (riff_header ++ [Byte.x07])
    :: map strip_repeated_header [riff_header ++ [Byte.x09]]
  /\ strip_repeated_header (riff_header ++ [Byte.x09]) = [Byte.x09].
Proof.
  split; [|reflexivity].
  refine (proj1 (tts_chunks_assemble
            [mkMessage (Text []) (TtsChunk (mkBase64 [] (Some (riff_header ++ [Byte.x07]))));
             mkMessage (Text []) (TtsChunk (mkBase64 [] (Some (riff_header ++ [Byte.x09]))))]
            (riff_header ++ [Byte.x07]) [riff_header ++ [Byte.x09]] initial
            _ eq_refl eq_refl)).
  repeat constructor; eexists; split; reflexivity.
Defined.

(** ** Reading the log *)

Lemma since_app st st' l : log st' = log st ++ l -> since st st' = l.
Proof. unfold since. intros ->. apply drop_app_length. Qed.

(** Rewrites a log built by [emit]s over [st] into [log st ++ _]. *)
Ltac log_norm :=
  cbn [log emit with_gate with_murf with_dom with_reco with_stream];
  rewrite <- ?app_assoc; cbn [app].

(** Computes the effects of a run given by [emit]s over [st]. *)
Ltac since_compute st :=
  repeat match goal with
  | |- context [since st ?s] =>
      erewrite (since_app st s)
        by (log_norm; first [reflexivity | symmetry; apply app_nil_r])
  end.

(** ** The retry loop *)

Lemma retryPlay_exhausted url outcomes attempt st :
  3 < attempt ->
  retryPlay url outcomes attempt st
  = with_gate (fun g => mkGate (audioUnlocked g) (Some url)) st.
Proof.
  intros H. destruct outcomes; cbn [retryPlay];
    destruct (Z.ltb_spec 3 attempt); (reflexivity || lia).
Qed.

Lemma retryPlay_pending url attempt st :
  attempt <= 3 ->
  retryPlay url [] attempt st
  = emit AudioPlay (emit (SetTimeout (250 * attempt)) st).
Proof.
  intros H. cbn [retryPlay].
  destruct (Z.ltb_spec 3 attempt); (reflexivity || lia).
Qed.

Lemma retryPlay_fulfilled url rest attempt st :
  attempt <= 3 ->
  retryPlay url (true :: rest) attempt st
  = emit (Console (js "Audio playback started (retry)"))
      (emit AudioPlay (emit (SetTimeout (250 * attempt)) st)).
Proof.
  intros H. cbn [retryPlay].
  destruct (Z.ltb_spec 3 attempt); (reflexivity || lia).
Qed.

Lemma retryPlay_rejected url rest attempt st :
  attempt <= 3 ->
  retryPlay url (false :: rest) attempt st
  = retryPlay url rest (attempt + 1)
      (emit AudioPlay (emit (SetTimeout (250 * attempt)) st)).
Proof.
  intros H. cbn [retryPlay].
  destruct (Z.ltb_spec 3 attempt); (reflexivity || lia).
Qed.

Ltac retry_steps :=
  cbn [onloadeddata repeat app];
  repeat first [ rewrite retryPlay_exhausted by lia
               | rewrite retryPlay_rejected by lia
               | rewrite retryPlay_fulfilled by lia
               | rewrite retryPlay_pending by lia ].

(** C8.  After [loadeddata], whatever the outcomes of the play calls,
    [agentAudio.play()] is called at most four times: once at once and
    at most three times from a timer, the i-th after 250 * i ms.  When
    the first four calls are all rejected the URL of the request is
    left in [pendingAutoPlayUrl] and no fifth call is made; a call
    that succeeds is the last one and leaves the gate as it was. *)
Theorem retry_at_most_three (url : jsstring) (st : State) :
  (forall outcomes,
     (play_calls (since st (onloadeddata url outcomes st)) <= 4)%nat
     /\ exists k, (k <= 3)%nat
          /\ delays (since st (onloadeddata url outcomes st))
             = map (fun i => 250 * Z.of_nat i) (seq 1 k))
  /\ (forall more,
        let st' := onloadeddata url (false :: false :: false :: false :: more) st in
        play_calls (since st st') = 4%nat
        /\ delays (since st st') = [250; 500; 750]
        /\ pendingAutoPlayUrl (gate st') = Some url
        /\ audioUnlocked (gate st') = audioUnlocked (gate st))
  /\ (forall k more, (k <= 3)%nat ->
        let st' := onloadeddata url (repeat false k ++ true :: more) st in
        play_calls (since st st') = S k
        /\ delays (since st st') = map (fun i => 250 * Z.of_nat i) (seq 1 k)
        /\ gate st' = gate st).
Proof.
  split; [|split].
  - intros outcomes.
    destruct outcomes as [|[|] [|[|] [|[|] [|[|] rest]]]]; retry_steps.
    all: since_compute st.
    all: split; [unfold play_calls; cbn [List.filter length]; lia|].
    all: first [ exists 0%nat; split; [lia|reflexivity]
               | exists 1%nat; split; [lia|reflexivity]
               | exists 2%nat; split; [lia|reflexivity]
               | exists 3%nat; split; [lia|reflexivity] ].
  - intros more st'. subst st'. retry_steps. since_compute st.
    repeat split.
  - intros k more Hk st'. subst st'.
    assert (Hcases : k = 0%nat \/ k = 1%nat \/ k = 2%nat \/ k = 3%nat) by lia.
    destruct Hcases as [->|[->|[->| ->]]]; retry_steps.
    all: since_compute st.
    all: repeat split.
Qed.

Lemma retry_at_most_three_witness :
  let st' := onloadeddata (js "/a.mp3") (repeat false 2 ++ [true]) initial in
  play_calls (since initial st') = 3%nat
  /\ delays (since initial st') = [250; 500]
  /\ gate st' = gate initial.
Proof.
  exact (proj2 (proj2 (retry_at_most_three (js "/a.mp3") initial))
           2%nat [] ltac:(lia)).
Defined.

(** ** The autoplay gate *)

Lemma unlockAudioIfNeeded_unlocks st :
  audioUnlocked (gate (unlockAudioIfNeeded st)) = true.
Proof.
  unfold unlockAudioIfNeeded.
  destruct (audioUnlocked (gate st)) eqn:Hu; [exact Hu|].
  destruct (audioContext (dom st)); unfold flushPending;
    cbn [with_gate emit gate pendingAutoPlayUrl];
    (destruct (pendingAutoPlayUrl (gate st)) as [u|]; [|reflexivity]);
    (destruct (truthy u); [|reflexivity]);
    unfold playAgentAudio;
    cbn [with_gate emit gate dom audioUnlocked agentAudio negb andb];
    destruct (negb (agentAudio (dom st)) || negb (truthy u)); reflexivity.
Qed.

(** A request made while the gate is locked only replaces the pending
    URL. *)
Lemma playAgentAudio_deferred url st :
  audioUnlocked (gate st) = false -> agentAudio (dom st) = true ->
  truthy url = true ->
  playAgentAudio url false st = with_gate (fun g => mkGate false (Some url)) st.
Proof.
  intros Hu Ha Ht. unfold playAgentAudio. rewrite Hu, Ha, Ht. cbn.
  unfold with_gate. now rewrite Hu.
Qed.

Lemma deferred_requests urls : forall st,
  audioUnlocked (gate st) = false -> agentAudio (dom st) = true ->
  Forall (fun u => truthy u = true) urls ->
  let st' := fold_left (fun s u => playAgentAudio u false s) urls st in
  audioUnlocked (gate st') = false /\ dom st' = dom st /\ log st' = log st.
Proof.
  induction urls as [|u urls IH]; intros st Hu Ha HF; [now cbn|].
  inversion HF as [|? ? Ht HF']; subst. cbn [fold_left].
  rewrite (playAgentAudio_deferred u st Hu Ha Ht).
  apply (IH (with_gate (fun g => mkGate false (Some u)) st)); auto.
Qed.

(** The flush of a pending request by the unlock. *)
Lemma unlockAudioIfNeeded_flushes u st :
  audioUnlocked (gate st) = false -> agentAudio (dom st) = true ->
  truthy u = true -> pendingAutoPlayUrl (gate st) = Some u ->
  sources_set (since st (unlockAudioIfNeeded st))
  = [cacheBust u (dateNow (dom st))]
  /\ pendingAutoPlayUrl (gate (unlockAudioIfNeeded st)) = None.
Proof.
  intros Hu Ha Ht Hp. unfold unlockAudioIfNeeded. rewrite Hu.
  destruct (audioContext (dom st)); unfold flushPending;
    cbn [with_gate emit gate pendingAutoPlayUrl]; rewrite Hp, Ht;
    unfold playAgentAudio;
    cbn [with_gate emit gate dom audioUnlocked agentAudio negb andb];
    rewrite Ha, Ht; cbn [negb orb]; since_compute st; split; reflexivity.
Qed.

(** C9.  A second [unlockAudioIfNeeded()] changes nothing, the log
    included; after a call the gate is unlocked whatever the audio
    support of the window and the fate of the probe; and of the
    requests deferred while the gate was locked the last one, and only
    it, is given to the audio element by the unlock. *)
Theorem unlockAudioIfNeeded_idempotent (st : State) :
  unlockAudioIfNeeded (unlockAudioIfNeeded st) = unlockAudioIfNeeded st
  /\ audioUnlocked (gate (unlockAudioIfNeeded st)) = true
  /\ (forall earlier u,
        audioUnlocked (gate st) = false -> agentAudio (dom st) = true ->
        Forall (fun x => truthy x = true) (earlier ++ [u]) ->
        let deferred :=
          fold_left (fun s x => playAgentAudio x false s) (earlier ++ [u]) st in
        pendingAutoPlayUrl (gate deferred) = Some u
        /\ sources_set (since deferred (unlockAudioIfNeeded deferred))
           = [cacheBust u (dateNow (dom st))]
        /\ pendingAutoPlayUrl (gate (unlockAudioIfNeeded deferred)) = None)
  /\ (pendingAutoPlayUrl (gate st) = None ->
      sources_set (since st (unlockAudioIfNeeded st)) = []).
Proof.
  split; [|split; [|split]].
  - pose proof (unlockAudioIfNeeded_unlocks st) as H.
    unfold unlockAudioIfNeeded at 1. now rewrite H.
  - apply unlockAudioIfNeeded_unlocks.
  - intros earlier u Hu Ha HF.
    apply Forall_app in HF as [HF1 HF2]. inversion HF2 as [|? ? Ht _]; subst.
    destruct (deferred_requests earlier st Hu Ha HF1) as (Hu' & Hd & Hl).
    intros deferred.
    assert (Hdef : deferred
                   = with_gate (fun g => mkGate false (Some u))
                       (fold_left (fun s x => playAgentAudio x false s) earlier st)).
    { unfold deferred. rewrite fold_left_app. cbn [fold_left].
      apply playAgentAudio_deferred; [exact Hu'| now rewrite Hd | exact Ht]. }
    clearbody deferred.
    split; [now rewrite Hdef|].
    replace (dom st) with (dom deferred) by now rewrite Hdef.
    apply unlockAudioIfNeeded_flushes; rewrite ?Hdef;
      cbn [with_gate gate dom audioUnlocked pendingAutoPlayUrl]; auto.
    now rewrite Hd.
  - intros Hp. unfold unlockAudioIfNeeded.
    destruct (audioUnlocked (gate st)).
    + unfold since. now rewrite skipn_all.
    + destruct (audioContext (dom st)); unfold flushPending;
        cbn [with_gate emit gate pendingAutoPlayUrl]; rewrite Hp;
        since_compute st; reflexivity.
Qed.

Lemma unlockAudioIfNeeded_idempotent_witness :
  let deferred :=
    fold_left (fun s x => playAgentAudio x false s)
              ([js "/one.mp3"] ++ [js "/two.mp3"]) initial in
  pendingAutoPlayUrl (gate deferred) = Some (js "/two.mp3")
  /\ sources_set (since deferred (unlockAudioIfNeeded deferred))
     = [cacheBust (js "/two.mp3") (dateNow (dom initial))]
  /\ pendingAutoPlayUrl (gate (unlockAudioIfNeeded deferred)) = None.
Proof.
  refine (proj1 (proj2 (proj2 (unlockAudioIfNeeded_idempotent initial)))
            [js "/one.mp3"] (js "/two.mp3") eq_refl eq_refl _).
  repeat constructor.
Defined.

(** ** The PCM framer *)

Lemma setInt16_at (pre zs : bytes) (i : nat) (v : Z) :
  length pre = (i * 2)%nat -> (2 <= length zs)%nat ->
  setInt16 (pre ++ zs) (i * 2) v = Some ((pre ++ le_split 2 v) ++ skipn 2 zs).
Proof.
  intros Hpre Hzs. unfold setInt16. rewrite length_app.
  destruct (Nat.leb_spec (i * 2 + 2) (length pre + length zs)); [|lia].
  f_equal. rewrite <- Hpre.
  rewrite firstn_app, firstn_all, Nat.sub_diag, firstn_O, app_nil_r.
  rewrite skipn_app, skipn_all2 by lia.
  replace (length pre + 2 - length pre)%nat with 2%nat by lia.
  now rewrite <- app_assoc.
Qed.

Lemma convert_fills (inputData : list Sample) : forall (i : nat) (pre zs : bytes),
  length pre = (i * 2)%nat -> (length inputData * 2 <= length zs)%nat ->
  convert i inputData (pre ++ zs)
  = Some (pre ++ concat (map pcm16 inputData)
              ++ skipn (length inputData * 2) zs).
Proof.
  induction inputData as [|x rest IH]; intros i pre zs Hpre Hzs.
  - cbn [convert map concat length Nat.mul app]. now rewrite skipn_O.
  - cbn [convert]. cbn [length] in Hzs.
    rewrite setInt16_at by lia. fold (pcm16 x).
    rewrite (IH (S i) (pre ++ pcm16 x) (skipn 2 zs)).
    + f_equal. cbn [map concat length]. rewrite skipn_skipn.
      rewrite <- !app_assoc.
      now replace (S (length rest) * 2)%nat with (length rest * 2 + 2)%nat by lia.
    + unfold pcm16. rewrite length_app, length_le_split. lia.
    + rewrite length_skipn. lia.
Qed.

Lemma frame_eq (inputData : list Sample) :
  frame inputData = Some (concat (map pcm16 inputData)).
Proof.
  unfold frame.
  change (repeat Byte.x00 (length inputData * 2))
    with ([] ++ repeat Byte.x00 (length inputData * 2)).
  rewrite convert_fills by (rewrite ?repeat_length; reflexivity || lia).
  cbn [app]. rewrite skipn_all2 by (rewrite repeat_length; lia).
  now rewrite app_nil_r.
Qed.

Lemma frame_slot (inputData : list Sample) : forall (i : nat) (x : Sample),
  inputData !! i = Some x ->
  firstn 2 (skipn (i * 2) (concat (map pcm16 inputData))) = pcm16 x.
Proof.
  induction inputData as [|a rest IH]; intros i x Hi; [discriminate|].
  cbn [map concat]. destruct i as [|i].
  - injection Hi as ->. cbn [Nat.mul]. rewrite skipn_O.
    assert (Hlen : length (pcm16 x) = 2%nat) by apply length_le_split.
    rewrite firstn_app, Hlen, Nat.sub_diag, firstn_O, app_nil_r.
    apply firstn_all2. lia.
  - cbn in Hi.
    assert (Hlen : length (pcm16 a) = 2%nat) by apply length_le_split.
    rewrite skipn_app, Hlen.
    rewrite skipn_all2 by lia.
    replace (S i * 2 - 2)%nat with (i * 2)%nat by lia.
    cbn [app]. now apply IH.
Qed.

Lemma frame_length (inputData : list Sample) :
  length (concat (map pcm16 inputData)) = (length inputData * 2)%nat.
Proof.
  induction inputData as [|a rest IH]; [reflexivity|].
  cbn [map concat length]. unfold pcm16 at 1.
  rewrite length_app, length_le_split, IH. lia.
Qed.

Lemma getInt16_le_split (v : Z) :
  -32768 <= v <= 32767 ->
  (let u := le_combine (le_split 2 v) in if u <? 2 ^ 15 then u else u - 2 ^ 16)
  = v.
Proof.
  intros Hv. cbv zeta. rewrite (le_combine_split 2 v).
  change (2 ^ (Z.of_nat 2 * 8)) with 65536. change (2 ^ 15) with 32768.
  change (2 ^ 16) with 65536.
  destruct (Z.ltb_spec (v mod 65536) 32768) as [H|H];
    destruct (Z.le_gt_cases 0 v) as [Hs|Hs].
  - rewrite Z.mod_small; lia.
  - rewrite <- (Z.mod_add v 1 65536), Z.mod_small in H by lia. lia.
  - rewrite Z.mod_small in H; lia.
  - rewrite <- (Z.mod_add v 1 65536), Z.mod_small by lia. lia.
Qed.

Lemma clamp_finite (q : Q) :
  exists c, clamp (Finite q) = Finite c
    /\ (-1 <= c <= 1)%Q
    /\ ((-1 <= q <= 1)%Q -> c = q)
    /\ ((q < -1)%Q -> c = (-1)%Q)
    /\ ((1 < q)%Q -> c = 1%Q).
Proof.
  unfold clamp.
  destruct (Qle_bool q 1) eqn:H1.
  - destruct (Qle_bool (-1) q) eqn:H2.
    + apply Qle_bool_iff in H1, H2. exists q. repeat split; auto.
      * intros H. exfalso. apply (Qlt_not_le _ _ H H2).
      * intros H. exfalso. apply (Qlt_not_le _ _ H H1).
    + assert (Hlt : (q < -1)%Q).
      { apply Qnot_le_lt. intros H. apply Qle_bool_iff in H. congruence. }
      exists (-1)%Q. repeat split; try easy.
      * intros [H _]. exfalso. apply (Qlt_not_le _ _ Hlt H).
      * intros H. apply Qle_bool_iff in H1. exfalso.
        apply (Qlt_not_le _ _ H H1).
  - assert (Hlt : (1 < q)%Q).
    { apply Qnot_le_lt. intros H. apply Qle_bool_iff in H. congruence. }
    change (Qle_bool (-1) 1) with true. cbv iota.
    exists 1%Q. repeat split; try easy.
    + intros [_ H]. exfalso. apply (Qlt_not_le _ _ Hlt H).
    + intros H. exfalso. apply (Qlt_not_le _ _ Hlt).
      apply Qlt_le_weak. apply (Qlt_trans _ (-1)); [exact H | reflexivity].
Qed.

Lemma pcm_of_clamped (c : Q) :
  (-1 <= c <= 1)%Q ->
  let v := ToInteger (scale (Finite c)) in
  -32768 <= v <= 32767
  /\ ((c < 0)%Q -> v = Qceiling (c * 0x8000))
  /\ ((0 <= c)%Q -> v = Qfloor (c * 0x7FFF)).
Proof.
  destruct c as [a b]. unfold Qle, Qlt. cbn [Qnum Qden]. intros [Hlo Hhi].
  unfold scale. destruct (Qle_bool 0 (a # b)) eqn:Hs.
  - apply Qle_bool_iff in Hs. unfold Qle in Hs. cbn [Qnum Qden] in Hs.
    cbn [ToInteger Qmult Qnum Qden].
    assert (Ha : 0 <= a) by lia.
    rewrite Pos.mul_1_r, Z.quot_div_nonneg by lia.
    assert (Hq : (a * 32767) / Z.pos b <= 32767).
    { apply Z.div_le_upper_bound; lia. }
    assert (Hq0 : 0 <= (a * 32767) / Z.pos b) by (apply Z.div_pos; lia).
    split; [lia|]. split; [intros; lia|]. intros _.
    unfold Qfloor, Qmult. cbn [Qnum Qden]. now rewrite Pos.mul_1_r.
  - assert (Ha : a < 0).
    { destruct (Z.lt_ge_cases a 0) as [H|H]; [exact H|].
      assert (Qle_bool 0 (a # b) = true); [|congruence].
      apply Qle_bool_iff. unfold Qle. cbn [Qnum Qden]. lia. }
    cbn [ToInteger Qmult Qnum Qden]. rewrite Pos.mul_1_r.
    replace (a * 32768) with (- (- a * 32768)) by lia.
    rewrite Z.quot_opp_l, Z.quot_div_nonneg by lia.
    assert (Hq : (- a * 32768) / Z.pos b <= 32768).
    { apply Z.div_le_upper_bound; lia. }
    assert (Hq0 : 0 <= (- a * 32768) / Z.pos b) by (apply Z.div_pos; lia).
    split; [lia|]. split; [|intros; lia]. intros _.
    unfold Qceiling, Qfloor, Qopp, Qmult. cbn [Qnum Qden].
    rewrite Pos.mul_1_r. do 2 f_equal. lia.
Qed.

(** C7.  The frame built from a quantum has two bytes per input
    sample, in input order.  The sample at index [i] is read back at
    offset [2 i] as a signed little-endian 16-bit integer [v]: for a
    finite sample with clamped value [c] in [-1, 1], [v] is
    [c * 0x8000] when [c] is negative and [c * 0x7FFF] otherwise,
    rounded towards zero to the integer the store needs; an infinite
    sample gives the end of the range, NaN gives 0.  The frame is sent
    as it is when the socket is open. *)
Theorem frame_is_pcm16 (inputData : list Sample) :
  exists buffer,
    frame inputData = Some buffer
    /\ length buffer = (length inputData * 2)%nat
    /\ (forall (i : nat) (x : Sample), inputData !! i = Some x ->
          let v := getInt16 buffer (i * 2) in
          -32768 <= v <= 32767
          /\ match x with
             | NaN => v = 0
             | Infinite negative => v = if negative then -32768 else 32767
             | Finite q =>
                 exists c,
                   clamp x = Finite c
                   /\ (-1 <= c <= 1)%Q
                   /\ ((-1 <= q <= 1)%Q -> c = q)
                   /\ ((q < -1)%Q -> c = (-1)%Q)
                   /\ ((1 < q)%Q -> c = 1%Q)
                   /\ ((c < 0)%Q -> v = Qceiling (c * 0x8000))
                   /\ ((0 <= c)%Q -> v = Qfloor (c * 0x7FFF))
             end)
    /\ (forall (st : State) (id : nat),
          streamWS (stream st) = Some id ->
          onaudioprocess inputData st =
          Normal (match sockets (stream st) !! id with
                  | Some OPEN => emit (WsSend id buffer) st
                  | _ => st
                  end)).
Proof.
  eexists. split; [apply frame_eq|]. split; [apply frame_length|]. split.
  - intros i x Hi v. subst v. unfold getInt16.
    rewrite (frame_slot inputData i x Hi). unfold pcm16.
    destruct x as [|negative|q].
    + split; [|reflexivity]. vm_compute. split; discriminate.
    + destruct negative; (split; [|reflexivity]); vm_compute; split; discriminate.
    + destruct (clamp_finite q) as (c & Hc & Hrange & Hin & Hlo & Hhi).
      rewrite Hc.
      destruct (pcm_of_clamped c Hrange) as (Hv & Hneg & Hpos).
      rewrite getInt16_le_split by exact Hv.
      split; [exact Hv|]. exists c. repeat split; auto; apply Hrange.
  - intros st id Hid. unfold onaudioprocess, readyState.
    rewrite frame_eq, Hid.
    now destruct (sockets (stream st) !! id) as [[]|].
Qed.

Lemma frame_is_pcm16_witness :
  exists buffer,
    frame [Finite (1 # 2); Finite (-3 # 1); NaN] = Some buffer
    /\ getInt16 buffer 0 = 16383
    /\ getInt16 buffer 2 = -32768
    /\ getInt16 buffer 4 = 0.
Proof.
  destruct (frame_is_pcm16 [Finite (1 # 2); Finite (-3 # 1); NaN])
    as (buffer & Hb & _ & Hs & _).
  exists buffer. split; [exact Hb|].
  destruct (Hs 0%nat (Finite (1 # 2)) eq_refl)
    as (_ & c0 & E0 & _ & _ & _ & _ & _ & H0).
  destruct (Hs 1%nat (Finite (-3 # 1)) eq_refl)
    as (_ & c1 & E1 & _ & _ & _ & _ & H1 & _).
  destruct (Hs 2%nat NaN eq_refl) as (_ & H2).
  injection E0 as <-. injection E1 as <-.
  split; [exact (H0 ltac:(discriminate))|].
  split; [exact (H1 eq_refl)|exact H2].
Defined.

(** ** The reconciler *)

Lemma alter_last {A} (f : A -> A) (l : list A) (x : A) :
  alter f (length l) (l ++ [x]) = l ++ [f x].
Proof.
  rewrite <- (Nat.add_0_r (length l)). now rewrite alter_app_r.
Qed.

Lemma onPartial_ignored raw st :
  truthy (trim raw) = false -> onPartial (Text raw) st = st.
Proof. intros H. unfold onPartial. now rewrite H. Qed.

Section Reconciler.

(** The rows the chat held when the utterance began. *)
Variable base : list Row.

Lemma onPartial_idle raw st :
  Idle base st -> truthy (trim raw) = true ->
  (normalizeTranscript raw = [] /\ onPartial (Text raw) st = st)
  \/ (normalizeTranscript raw <> []
      /\ Live base (normalizeTranscript raw) (onPartial (Text raw) st)).
Proof.
  intros (Hl & Hp & Hc) Hraw. unfold onPartial. rewrite Hraw, Hp.
  unfold str_eqb. case_bool_decide as Hn; [now left|]. right.
  split; [exact Hn|]. cbn [negb with_reco reco liveRow]. rewrite Hl.
  unfold addMsg. cbn [with_reco dom]. rewrite Hc.
  unfold bubble_text.
  rewrite (truthy_true _ Hn), trim_normalizeTranscript, (truthy_true _ Hn).
  unfold Live. autorewrite with status_frame.
  now cbn [with_reco with_dom dom reco liveRow lastPartial chatMessages].
Qed.

Lemma onPartial_live shown raw st :
  Live base shown st -> truthy (trim raw) = true ->
  Live base (normalizeTranscript raw) (onPartial (Text raw) st).
Proof.
  intros (Hl & Hp & Hc) Hraw. unfold onPartial. rewrite Hraw, Hp.
  unfold str_eqb. case_bool_decide as Hn.
  - cbn [negb]. rewrite Hn. now unfold Live.
  - cbn [negb with_reco reco liveRow]. rewrite Hl.
    unfold Live. autorewrite with status_frame.
    unfold set_bubble_text, update_row.
    cbn [with_reco with_dom dom reco liveRow lastPartial chatMessages].
    rewrite Hc. cbn [option_map]. now rewrite alter_last.
Qed.

Lemma onmessage_raw ev raw st :
  raw_event ev raw -> onmessage ev st = onPartial (Text raw) st.
Proof. intros [Hd [Hp|Hp]]; unfold onmessage; now rewrite Hp, Hd. Qed.

Lemma partials_live evs : forall raws shown st,
  Forall2 raw_event evs raws -> Live base shown st ->
  Live base (fold_left shows raws shown) (onmessages evs st).
Proof.
  induction evs as [|ev evs IH]; intros raws shown st HF HL;
    inversion HF as [|? raw ? raws' Hev HF']; subst; [exact HL|].
  cbn [onmessages fold_left]. fold (onmessages evs (onmessage ev st)).
  apply IH; [exact HF'|]. rewrite (onmessage_raw ev raw st Hev).
  unfold shows. destruct (truthy (trim raw)) eqn:Hraw.
  - now apply (onPartial_live shown).
  - now rewrite onPartial_ignored.
Qed.

Lemma partials_idle evs : forall raws st,
  Forall2 raw_event evs raws -> Idle base st ->
  (Idle base (onmessages evs st)
   /\ Forall (fun raw => normalizeTranscript raw = []) raws)
  \/ Live base (fold_left shows raws []) (onmessages evs st).
Proof.
  induction evs as [|ev evs IH]; intros raws st HF HI;
    inversion HF as [|? raw ? raws' Hev HF']; subst; [left; now split|].
  cbn [onmessages fold_left]. fold (onmessages evs (onmessage ev st)).
  rewrite (onmessage_raw ev raw st Hev).
  unfold shows at 2. destruct (truthy (trim raw)) eqn:Hraw.
  - destruct (onPartial_idle raw st HI Hraw) as [[Hn ->]|[Hn HL]].
    + rewrite Hn. destruct (IH raws' st HF' HI) as [[HI' Hall]|HL'];
        [left; split; [exact HI' | now constructor] | now right].
    + right. now apply (partials_live evs raws' _ _ HF').
  - rewrite onPartial_ignored by exact Hraw.
    destruct (IH raws' st HF' HI) as [[HI' Hall]|HL'];
      [left; split; [exact HI'|] | now right].
    constructor; [now apply normalizeTranscript_blank | exact Hall].
Qed.

Lemma onTurnEnd_live shown transcript llm_response st :
  Live base shown st -> present transcript = false ->
  Idle (base ++ [mkRow user shown true None] ++ agent_rows llm_response)
       (onTurnEnd transcript llm_response st).
Proof.
  intros (Hl & Hp & Hc) Ht. unfold onTurnEnd.
  assert (Hfinal :
    match transcript with
    | Some t =>
        if truthy t then Some (normalizeTranscript t)
        else if truthy (lastPartial (reco st))
             then Some (lastPartial (reco st)) else None
    | None =>
        if truthy (lastPartial (reco st))
        then Some (lastPartial (reco st)) else None
    end = if truthy shown then Some shown else None).
  { rewrite Hp. destruct transcript as [t|]; [|reflexivity].
    cbn in Ht. now rewrite Ht. }
  rewrite Hfinal, Hl. clear Hfinal.
  set (marked := mark_final (length base)
                   (if truthy shown then set_bubble_text (length base) shown st
                    else st)).
  assert (Hmarked : chatMessages (dom marked)
                    = Some (base ++ [mkRow user shown true None])).
  { unfold marked, mark_final, set_bubble_text, update_row.
    destruct (truthy shown); cbn [with_dom dom chatMessages];
      rewrite Hc; cbn [option_map]; rewrite ?alter_last; cbn;
      rewrite ?alter_last; reflexivity. }
  destruct (truthy shown) eqn:Hs; cbn [present];
    rewrite ?Hs; fold marked; unfold Idle; cbn [with_reco reco dom liveRow lastPartial];
    (split; [reflexivity|]); (split; [reflexivity|]);
    unfold agent_rows; destruct (present llm_response);
    rewrite ?app_nil_r;
    unfold addMsg; rewrite ?chat_set_status, ?Hmarked;
    cbn [fst with_dom dom chatMessages]; rewrite ?chat_set_status;
    rewrite <- ?app_assoc; auto.
Qed.

End Reconciler.

(** C5, as stated, fails: a last partial that is white space only is
    ignored, and the row keeps the partial before it. *)
Lemma final_text_last_partial_counterexample :
  chatMessages
    (dom (onmessages [partial (js "hello"); partial (js "   ");
                      mkMessage (Text []) (TurnEnd None None)] initial))
  = Some [mkRow user (js "hello") true None]
  /\ normalizeTranscript (js "   ") = []
  /\ js "hello" <> [].
Proof. repeat split. discriminate. Qed.

(** C5, amended.  Let the raw partials P1..Pn arrive when no utterance
    is in progress, Pn holding a character that is not white space and
    some Pi normalising to a text that is not empty, and let a
    [turn_end] without transcript follow.  Then the chat has gained
    one user row, marked final, whose text is the normalisation of Pn
    (and after it the row of the agent's response, if any), and the
    reconciler is ready for the next utterance. *)
Theorem final_text_is_last_partial (st : State) (base : list Row)
    (evs : list MessageEvent) (earlier : list jsstring) (last : jsstring)
    (turn_end : MessageEvent) (transcript llm_response : option jsstring) :
  Idle base st ->
  Forall2 raw_event evs (earlier ++ [last]) ->
  truthy (trim last) = true ->
  Exists (fun raw => normalizeTranscript raw <> []) (earlier ++ [last]) ->
  parsed turn_end = TurnEnd transcript llm_response ->
  present transcript = false ->
  Idle (base ++ [mkRow user (normalizeTranscript last) true None]
             ++ agent_rows llm_response)
       (onmessages (evs ++ [turn_end]) st).
Proof.
  intros HI HF Hlast Hex Hturn Ht.
  unfold onmessages. rewrite fold_left_app. cbn [fold_left].
  fold (onmessages evs st).
  assert (HL : Live base (normalizeTranscript last) (onmessages evs st)).
  { destruct (partials_idle base evs _ st HF HI) as [[_ Hall]|HL].
    - exfalso. apply Exists_exists in Hex as (raw & Hin & Hne).
      rewrite Forall_forall in Hall. now apply Hne, Hall.
    - rewrite fold_left_app in HL. cbn [fold_left] in HL.
      unfold shows at 1 in HL. now rewrite Hlast in HL. }
  unfold onmessage. rewrite Hturn.
  now apply onTurnEnd_live.
Qed.

Lemma final_text_is_last_partial_witness :
  Idle ([] ++ [mkRow user (normalizeTranscript (js " good  morning ")) true None]
           ++ agent_rows (Some (js "hi there")))
       (onmessages ([partial (js "good"); partial (js " good  morning ")]
                    ++ [mkMessage (Text []) (TurnEnd None (Some (js "hi there")))])
                   initial).
Proof.
  apply (final_text_is_last_partial initial []
           [partial (js "good"); partial (js " good  morning ")]
           [js "good"] (js " good  morning ")
           (mkMessage (Text []) (TurnEnd None (Some (js "hi there"))))
           None (Some (js "hi there"))).
  - repeat split.
  - repeat constructor.
  - reflexivity.
  - apply Exists_cons_hd. discriminate.
  - reflexivity.
  - reflexivity.
Defined.

(** ** The microphone toggle *)

Lemma session_trace_app l1 l2 :
  session_trace (l1 ++ l2) = session_trace l1 ++ session_trace l2.
Proof. apply List.filter_app. Qed.

(** The unlock touches neither the session nor the status line. *)
Lemma unlockAudioIfNeeded_frame st :
  exists l,
    log (unlockAudioIfNeeded st) = log st ++ l
    /\ session_trace l = []
    /\ stream (unlockAudioIfNeeded st) = stream st
    /\ dom (unlockAudioIfNeeded st) = dom st.
Proof.
  unfold unlockAudioIfNeeded.
  destruct (audioUnlocked (gate st));
    [exists []; now rewrite app_nil_r|].
  destruct (audioContext (dom st)); unfold flushPending;
    cbn [with_gate emit gate pendingAutoPlayUrl];
    (destruct (pendingAutoPlayUrl (gate st)) as [u|];
     [destruct (truthy u)|]);
    unfold playAgentAudio;
    cbn [with_gate emit gate dom audioUnlocked agentAudio negb andb];
    try destruct (negb (agentAudio (dom st)) || negb (truthy u));
    eexists;
    (split; [log_norm; first [reflexivity | symmetry; apply app_nil_r]|]);
    repeat split.
Qed.






(** ** Further properties of the message handler *)

(** X2.  A [turn_end] whose transcript normalises to a text that is
    not empty, arriving while no row is live, adds one final user row
    with that text and after it the row of the response, if any. *)
Theorem turn_end_creates_final_row (base : list Row) (st : State)
    (ev : MessageEvent) (t : jsstring) (llm_response : option jsstring) :
  Idle base st ->
  parsed ev = TurnEnd (Some t) llm_response ->
  normalizeTranscript t <> [] ->
  Idle (base ++ [mkRow user (normalizeTranscript t) true None]
             ++ agent_rows llm_response)
       (onmessage ev st).
Proof.
  intros (Hl & Hp & Hc) Hev Hn. unfold onmessage. rewrite Hev.
  unfold onTurnEnd.
  assert (Ht : truthy t = true).
  { destruct t; [now contradiction Hn | reflexivity]. }
  rewrite Ht, Hl. cbn [present]. rewrite (truthy_true _ Hn).
  unfold addMsg at 1. rewrite Hc. cbn [fst snd].
  unfold bubble_text.
  rewrite (truthy_true _ Hn), trim_normalizeTranscript, (truthy_true _ Hn).
  unfold Idle, mark_final, update_row.
  cbn [with_reco reco dom liveRow lastPartial].
  split; [reflexivity|]. split; [reflexivity|].
  unfold agent_rows, addMsg.
  destruct (present llm_response); autorewrite with status_frame;
    cbn [fst with_dom dom chatMessages option_map];
    autorewrite with status_frame;
    cbn [fst with_dom dom chatMessages option_map];
    rewrite alter_last; cbn [role textContent playBtn];
    now rewrite <- ?app_assoc, ?app_nil_r.
Qed.

Lemma turn_end_creates_final_row_witness :
  Idle ([] ++ [mkRow user (normalizeTranscript (js "hello world")) true None]
           ++ agent_rows (Some (js "hi there")))
       (onmessage
          (mkMessage (Text [])
             (TurnEnd (Some (js "hello world")) (Some (js "hi there"))))
          initial).
Proof.
  apply (turn_end_creates_final_row [] initial
           (mkMessage (Text [])
              (TurnEnd (Some (js "hello world")) (Some (js "hi there"))))
           (js "hello world") (Some (js "hi there"))).
  - repeat split.
  - reflexivity.
  - discriminate.
Defined.

(** X3.  A partial that normalises to the text on display changes
    nothing: no row, no status, no log entry. *)
Theorem repeated_partial_is_ignored (ev : MessageEvent) (raw : jsstring)
    (st : State) :
  raw_event ev raw ->
  normalizeTranscript raw = lastPartial (reco st) ->
  onmessage ev st = st.
Proof.
  intros Hev Hsame. rewrite (onmessage_raw ev raw st Hev).
  unfold onPartial. destruct (truthy (trim raw)); [|reflexivity].
  unfold str_eqb. now rewrite bool_decide_eq_true_2.
Qed.

Lemma repeated_partial_is_ignored_witness :
  onmessage (partial (js " hello "))
            (onmessage (partial (js "hello")) initial)
  = onmessage (partial (js "hello")) initial.
Proof.
  exact (repeated_partial_is_ignored (partial (js " hello ")) (js " hello ")
           (onmessage (partial (js "hello")) initial)
           (conj eq_refl (or_introl eq_refl)) eq_refl).
Defined.

(** X4.  [tts_done] with nothing buffered only clears the flag:
    nothing is decoded. *)
Theorem finalize_without_fragments (st : State) :
  murfAudioChunks (murf st) = [] ->
  finalizeMurfStream st
  = Normal (with_murf (fun m => mkMurf (murfAudioCtx m) [] false
                                       (murfFirstChunk m) (murfSourceNode m))
              st).
Proof.
  intros H. unfold finalizeMurfStream, with_murf.
  cbn [murf murfAudioCtx murfAudioChunks]. rewrite H.
  cbn [length Nat.eqb]. now rewrite orb_true_r.
Qed.

Lemma finalize_without_fragments_witness :
  finalizeMurfStream initial
  = Normal (with_murf (fun m => mkMurf (murfAudioCtx m) [] false
                                       (murfFirstChunk m) (murfSourceNode m))
              initial).
Proof. exact (finalize_without_fragments initial eq_refl). Defined.

(** X5.  With a key of the microphone missing, [toggleMic] only asks
    for the keys: no socket, no microphone request, no status. *)
Theorem toggleMic_without_keys (env : MicEnv) (st : State) :
  missing_keys mic (keys env) <> [] ->
  toggleMic env st = emit (PromptForKeys (missing_keys mic (keys env))) st.
Proof.
  intros H. unfold toggleMic, requireKeysOrPrompt.
  now destruct (missing_keys mic (keys env)).
Qed.

Lemma toggleMic_without_keys_witness :
  toggleMic (mkMicEnv (mkKeys [] (js "a") (js "m") [] []) Granted OPEN) initial
  = emit (PromptForKeys [js "Gemini"]) initial.
Proof.
  exact (toggleMic_without_keys
           (mkMicEnv (mkKeys [] (js "a") (js "m") [] []) Granted OPEN)
           initial ltac:(discriminate)).
Defined.

(** ** The scenarios of the specification, run on the model *)

(** Three [tts_chunk] messages, the third with a repeated header, then
    [tts_done]: one buffer goes to the decoder, 48 bytes long, with
    both size fields set. *)
Example scenario_three_chunks :
  let chunk d := mkMessage (Text []) (TtsChunk (mkBase64 [] (Some d))) in
  let st :=
    onmessages [chunk (riff_header ++ [Byte.x01; Byte.x02]);
                chunk [Byte.x03];
                chunk (riff_header ++ [Byte.x04]);
                mkMessage (Text []) TtsDone] initial in
  exists buf,
    log st = [SetStatus (js "Buffering Murf audio" ++ [ELLIPSIS]);
              DecodeAudioData buf;
              Console (js "[client] TTS streaming done")]
    /\ length buf = 48%nat
    /\ getUint32 buf 4 = 40
    /\ getUint32 buf 40 = 4
    /\ skipn 44 buf = [Byte.x01; Byte.x02; Byte.x03; Byte.x04]
    /\ murfPlaying (murf st) = false.
Proof. eexists. repeat split. Qed.

(** A [turn_end] with transcript and response while no row is live:
    a final user row, then the agent row. *)
Example scenario_turn_end_without_partials :
  chatMessages
    (dom (onmessage
            (mkMessage (Text [])
               (TurnEnd (Some (js "hello world")) (Some (js "hi there"))))
            initial))
  = Some [mkRow user (js "hello world") true None;
          mkRow agent (js "hi there") false None].
Proof. reflexivity. Qed.

(** Partials update one live row in place; an identical partial
    writes nothing. *)
Example scenario_partials :
  let st := onmessages [partial (js "hel"); partial (js "hello ");
                        partial (js "hello")] initial in
  chatMessages (dom st) = Some [mkRow user (js "hello") false None]
  /\ log st = [SetStatus (js "hel"); SetStatus (js "hello")].
Proof. split; reflexivity. Qed.

(** A granted microphone starts a session; a second toggle, with the
    socket still connecting, stops it and leaves that socket alone. *)
Example scenario_start_then_stop :
  let granting := mkMicEnv filled_keys Granted CONNECTING in
  let started := toggleMic granting initial in
  let stopped := toggleMic granting started in
  streaming (stream started) = true
  /\ llmStatus (dom started) = Some (js "Streaming" ++ [ELLIPSIS])
  /\ session_trace (log started)
     = [NewWebSocket 0; GetUserMedia; NewCaptureGraph;
        SetStatus (js "Listening" ++ [ELLIPSIS]); UiSound true;
        SetStatus (js "Streaming" ++ [ELLIPSIS])]
  /\ streaming (stream stopped) = false
  /\ session_trace (since started stopped)
     = [StopTracks; SetStatus []; UiSound false; SetStatus []]
  /\ sockets (stream stopped) = [CONNECTING].
Proof. repeat split. Qed.

(** Missing keys stop [toggleMic] before anything is acquired. *)
Example scenario_missing_keys :
  let env := mkMicEnv (mkKeys (js "g") [] (js "m") [] []) Granted OPEN in
  log (toggleMic env initial) = [PromptForKeys [js "AssemblyAI"]]
  /\ stream (toggleMic env initial) = stream initial.
Proof. split; reflexivity. Qed.

(** * Further properties *)

(** ** The assembler: what the decoder gets *)

Lemma setUint32_lookup_other buf off v buf' (i : nat) :
  setUint32 buf off v = Some buf' ->
  (i < off \/ off + 4 <= i)%nat ->
  buf' !! i = buf !! i.
Proof.
  intros [Hfit ->]%setUint32_Some Hi. destruct Hi as [Hi|Hi].
  - rewrite lookup_app_l by (rewrite length_firstn; lia).
    now apply lookup_take_lt.
  - rewrite lookup_app_r by (rewrite length_firstn; lia).
    rewrite length_firstn, Nat.min_l by lia.
    rewrite lookup_app_r by (rewrite length_le_split; lia).
    rewrite length_le_split, lookup_drop. f_equal. lia.
Qed.

Lemma fullAudio_total (chunks : list bytes) :
  exists buf, fullAudio chunks = Some buf
              /\ length buf = length (concat chunks).
Proof.
  destruct chunks as [|first rest]; [now exists []|].
  destruct ((WAV_HEADER <=? length first)%nat && starts_with_RIFF first) eqn:E.
  - apply andb_prop in E as [Hl Hr]. apply Nat.leb_le in Hl.
    destruct (fullAudio_patched first rest Hl Hr) as (buf & Hb & Hlen & _).
    now exists buf.
  - exists (concat (first :: rest)). unfold fullAudio. now rewrite E.
Qed.

Lemma finalizeMurfStream_run (st : State) :
  exists buf,
    fullAudio (murfAudioChunks (murf st)) = Some buf
    /\ length buf = length (concat (murfAudioChunks (murf st)))
    /\ finalizeMurfStream st
       = Normal
           (let st1 :=
              with_murf
                (fun m => mkMurf (murfAudioCtx m) (murfAudioChunks m) false
                                 (murfFirstChunk m) (murfSourceNode m)) st in
            if murfAudioCtx (murf st)
               && negb (length (murfAudioChunks (murf st)) =? 0)%nat
            then emit (DecodeAudioData buf) st1 else st1).
Proof.
  destruct (fullAudio_total (murfAudioChunks (murf st))) as (buf & Hb & Hl).
  exists buf. split; [exact Hb|]. split; [exact Hl|].
  unfold finalizeMurfStream, with_murf.
  cbn [murf murfAudioCtx murfAudioChunks]. rewrite Hb.
  now destruct (murfAudioCtx (murf st)),
    (length (murfAudioChunks (murf st)) =? 0)%nat.
Qed.

(** X6.  [finalizeMurfStream] never raises: the two [setUint32] calls
    always fit, since they are made only when the first chunk, hence
    the whole buffer, has 44 bytes.  It clears the accumulating flag,
    keeps the chunks, and calls the decoder once, with a buffer as
    long as the chunks together, exactly when there is an audio
    context and at least one chunk. *)
Theorem finalizeMurfStream_completes (st : State) :
  exists buf st',
    fullAudio (murfAudioChunks (murf st)) = Some buf
    /\ length buf = length (concat (murfAudioChunks (murf st)))
    /\ finalizeMurfStream st = Normal st'
    /\ murfPlaying (murf st') = false
    /\ murfAudioChunks (murf st') = murfAudioChunks (murf st)
    /\ murfAudioCtx (murf st') = murfAudioCtx (murf st)
    /\ decoded_buffers (since st st')
       = if murfAudioCtx (murf st)
            && negb (length (murfAudioChunks (murf st)) =? 0)%nat
         then [buf] else [].
Proof.
  destruct (finalizeMurfStream_run st) as (buf & Hb & Hl & Hrun).
  exists buf. eexists. split; [exact Hb|]. split; [exact Hl|].
  split; [exact Hrun|]. cbv zeta.
  destruct (murfAudioCtx (murf st) && _);
    cbn [with_murf emit murf murfPlaying murfAudioChunks murfAudioCtx];
    repeat split; since_compute st; reflexivity.
Qed.

(** X7.  The bytes of the buffer given to the decoder are those of the
    chunks end to end, except the eight bytes of the two size fields
    (offsets 4-7 and 40-43); when the first chunk is shorter than 44
    bytes or does not begin with RIFF nothing at all is rewritten. *)
Theorem fullAudio_keeps_the_rest (chunks : list bytes) (buf : bytes) :
  fullAudio chunks = Some buf ->
  length buf = length (concat chunks)
  /\ (forall i : nat,
        (i < 4 \/ 8 <= i < 40 \/ 44 <= i)%nat ->
        buf !! i = concat chunks !! i)
  /\ (match chunks with
      | first :: _ =>
          (length first < 44)%nat \/ starts_with_RIFF first = false
      | [] => True
      end -> buf = concat chunks).
Proof.
  intros Hb. split; [|split].
  - destruct (fullAudio_total chunks) as (buf' & Hb' & Hl). congruence.
  - intros i Hi. unfold fullAudio in Hb.
    destruct chunks as [|first rest]; [now injection Hb as <-|].
    destruct ((WAV_HEADER <=? length first)%nat && starts_with_RIFF first);
      [|now injection Hb as <-].
    destruct (setUint32 (concat (first :: rest)) 4 _) as [full1|] eqn:H1;
      [|discriminate].
    rewrite (setUint32_lookup_other _ _ _ _ i Hb) by lia.
    apply (setUint32_lookup_other _ _ _ _ i H1). lia.
  - unfold fullAudio in Hb. destruct chunks as [|first rest];
      [intros _; now injection Hb as <-|].
    intros Hno.
    replace ((WAV_HEADER <=? length first)%nat && starts_with_RIFF first)
      with false in Hb; [now injection Hb as <-|].
    symmetry. unfold WAV_HEADER. destruct Hno as [Hs| ->];
      [|apply andb_false_r].
    destruct (Nat.leb_spec 44 (length first)); [lia | reflexivity].
Qed.

Lemma fullAudio_keeps_the_rest_witness :
  exists buf,
    fullAudio [riff_header ++ [Byte.x07]; [Byte.x09]] = Some buf
    /\ length buf = 46%nat
    /\ buf !! 3%nat = Some Byte.x46
    /\ buf !! 45%nat = Some Byte.x09.
Proof.
  eexists. split; [reflexivity|].
  destruct (fullAudio_keeps_the_rest
              [riff_header ++ [Byte.x07]; [Byte.x09]] _ eq_refl)
    as (Hl & Hi & _).
  split; [exact Hl|]. split.
  - now rewrite (Hi 3%nat) by lia.
  - now rewrite (Hi 45%nat) by lia.
Defined.

(** ** The assembler across turns *)

Lemma initMurfStreamPlayback_view st st1 :
  initMurfStreamPlayback st = Normal st1 ->
  reco st1 = reco st /\ chatMessages (dom st1) = chatMessages (dom st)
  /\ gate st1 = gate st /\ stream st1 = stream st
  /\ audioContext (dom st1) = audioContext (dom st)
  /\ decoded_buffers (since st st1) = [].
Proof.
  unfold initMurfStreamPlayback, set_status.
  cbn [with_murf murf murfSourceNode dom llmStatus].
  destruct (negb (murfAudioCtx (murf st)) && _); [discriminate|].
  destruct (murfSourceNode (murf st));
    cbn [with_murf emit murf dom llmStatus];
    destruct (llmStatus (dom st));
    intros H; injection H as <-;
    cbn [with_murf with_dom emit murf dom reco gate stream llmStatus
         chatMessages audioContext];
    repeat split; since_compute st; reflexivity.
Qed.

Lemma initMurfStreamPlayback_throws st st1 :
  initMurfStreamPlayback st = Throw st1 -> st1 = st.
Proof.
  unfold initMurfStreamPlayback.
  destruct (negb (murfAudioCtx (murf st)) && _); congruence.
Qed.

Lemma pushMurfAudioChunk_throws b64 st st1 :
  pushMurfAudioChunk b64 st = Throw st1 -> st1 = st /\ atob b64 = None.
Proof.
  unfold pushMurfAudioChunk. destruct (atob b64); [discriminate|].
  now intros [= <-].
Qed.

(** What [tts_done] leaves behind. *)
Lemma tts_done_run done st :
  parsed done = TtsDone ->
  exists buf,
    fullAudio (murfAudioChunks (murf st)) = Some buf
    /\ onmessage done st
       = emit (Console (js "[client] TTS streaming done"))
           (let st1 :=
              with_murf
                (fun m => mkMurf (murfAudioCtx m) (murfAudioChunks m) false
                                 (murfFirstChunk m) (murfSourceNode m)) st in
            if murfAudioCtx (murf st)
               && negb (length (murfAudioChunks (murf st)) =? 0)%nat
            then emit (DecodeAudioData buf) st1 else st1).
Proof.
  intros Hd. destruct (finalizeMurfStream_run st) as (buf & Hb & _ & Hrun).
  exists buf. split; [exact Hb|]. unfold onmessage. now rewrite Hd, Hrun.
Qed.

(** X8.  Turns do not mix: after a [tts_done], the next [tts_chunk]
    begins a new buffer that holds its fragment alone, whatever the
    turn before had buffered. *)
Theorem tts_done_then_chunk_starts_afresh (done chunk : MessageEvent)
    (decoded : bytes) (st : State) :
  parsed done = TtsDone ->
  chunk_event chunk decoded ->
  audio_available st = true ->
  murfAudioChunks (murf (onmessages [done; chunk] st)) = [decoded]
  /\ murfPlaying (murf (onmessages [done; chunk] st)) = true
  /\ murfFirstChunk (murf (onmessages [done; chunk] st)) = false.
Proof.
  intros Hd (b64 & Hp & Ha) Hav. cbn [onmessages fold_left].
  destruct (tts_done_run done st Hd) as (buf & _ & Hrun).
  assert (Hplay : murfPlaying (murf (onmessage done st)) = false).
  { rewrite Hrun. cbv zeta. now destruct (murfAudioCtx (murf st) && _). }
  assert (Hav' : murfAudioCtx (murf (onmessage done st))
                 || constructs (audioContext (dom (onmessage done st))) = true).
  { rewrite Hrun. cbv zeta. now destruct (murfAudioCtx (murf st) && _). }
  now rewrite (tts_chunk_begins chunk b64 decoded _ Hp Ha Hplay Hav').
Qed.

Lemma tts_done_then_chunk_starts_afresh_witness :
  let st := with_murf (fun _ => mkMurf true [riff_header; [Byte.x01]]
                                       true false false) initial in
  let evs := [mkMessage (Text []) TtsDone;
              mkMessage (Text []) (TtsChunk (mkBase64 [] (Some [Byte.x02])))] in
  murfAudioChunks (murf (onmessages evs st)) = [[Byte.x02]]
  /\ murfPlaying (murf (onmessages evs st)) = true
  /\ murfFirstChunk (murf (onmessages evs st)) = false.
Proof.
  apply (tts_done_then_chunk_starts_afresh
           (mkMessage (Text []) TtsDone)
           (mkMessage (Text []) (TtsChunk (mkBase64 [] (Some [Byte.x02]))))
           [Byte.x02]
           (with_murf (fun _ => mkMurf true [riff_header; [Byte.x01]]
                                       true false false) initial)
           eq_refl).
  - eexists. split; reflexivity.
  - reflexivity.
Defined.

Lemma tts_chunk_begins_log ev b64 decoded st :
  parsed ev = TtsChunk b64 -> atob b64 = Some decoded ->
  murfPlaying (murf st) = false -> audio_available st = true ->
  exists l, log (onmessage ev st) = log st ++ l /\ decoded_buffers l = [].
Proof.
  intros Hp Ha Hplay Hav. unfold onmessage. rewrite Hp, Hplay. cbn [negb].
  unfold initMurfStreamPlayback, audio_available in *.
  replace (negb (murfAudioCtx (murf st))
           && negb (constructs (audioContext (dom st)))) with false
    by (destruct (murfAudioCtx (murf st)),
          (constructs (audioContext (dom st))); cbn in *; congruence).
  unfold pushMurfAudioChunk. rewrite Ha. unfold set_status.
  cbn [with_murf murf murfSourceNode dom llmStatus].
  destruct (murfSourceNode (murf st));
    cbn [with_murf emit murf dom llmStatus];
    destruct (llmStatus (dom st));
    cbn [with_murf with_dom emit murf dom llmStatus log];
    eexists; (split; [rewrite <- ?app_assoc; cbn [app];
                      first [reflexivity | symmetry; apply app_nil_r]|]);
    reflexivity.
Qed.

Lemma tts_chunk_appends_log ev b64 decoded st :
  parsed ev = TtsChunk b64 -> atob b64 = Some decoded ->
  murfPlaying (murf st) = true -> log (onmessage ev st) = log st.
Proof.
  intros Hp Ha Hplay. unfold onmessage. rewrite Hp, Hplay. cbn [negb].
  unfold pushMurfAudioChunk. now rewrite Ha.
Qed.

Lemma tts_chunks_append_log evs : forall fragments st,
  Forall2 chunk_event evs fragments ->
  murfPlaying (murf st) = true ->
  log (onmessages evs st) = log st.
Proof.
  induction evs as [|ev evs IH]; intros fragments st HF Hplay;
    inversion HF as [|? d ? ds (b64 & Hp & Ha) HF']; subst; [reflexivity|].
  cbn [onmessages fold_left]. fold (onmessages evs (onmessage ev st)).
  rewrite (IH ds _ HF').
  - now apply (tts_chunk_appends_log ev b64 d).
  - now rewrite (tts_chunk_appends ev b64 d st Hp Ha Hplay).
Qed.

(** X9.  One turn, one decode: from an idle assembler, the chunks of a
    turn followed by [tts_done] call the decoder exactly once, with
    the buffer assembled from the first fragment and the later ones
    without their repeated headers, sizes set. *)
Theorem tts_turn_decodes_once (evs : list MessageEvent) (first : bytes)
    (later : list bytes) (done : MessageEvent) (st : State) :
  Forall2 chunk_event evs (first :: later) ->
  parsed done = TtsDone ->
  murfPlaying (murf st) = false ->
  audio_available st = true ->
  exists buf,
    fullAudio (first :: map strip_repeated_header later) = Some buf
    /\ decoded_buffers (since st (onmessages (evs ++ [done]) st)) = [buf]
    /\ murfPlaying (murf (onmessages (evs ++ [done]) st)) = false.
Proof.
  intros HF Hd Hplay Hav.
  inversion HF as [|ev d evs' ds (b64 & Hp & Ha) HF']; subst.
  unfold onmessages. rewrite fold_left_app. cbn [fold_left].
  fold (onmessages evs' (onmessage ev st)).
  set (s1 := onmessage ev st).
  set (s2 := onmessages evs' s1).
  destruct (tts_chunk_begins_log ev b64 first st Hp Ha Hplay Hav)
    as (l & Hl & Hdl). fold s1 in Hl.
  pose proof (tts_chunk_begins ev b64 first st Hp Ha Hplay Hav) as Hm1.
  fold s1 in Hm1.
  assert (Hp1 : murfPlaying (murf s1) = true) by now rewrite Hm1.
  assert (Hf1 : murfFirstChunk (murf s1) = false) by now rewrite Hm1.
  assert (HF2 : Forall2 (fun ev d => exists b64, parsed ev = TtsChunk b64
                                                 /\ atob b64 = Some d)
                        evs' later) by exact HF'.
  pose proof (tts_chunks_append evs' later s1 HF2 Hp1 Hf1) as Hm2.
  fold s2 in Hm2. rewrite Hm1 in Hm2.
  cbn [murfAudioCtx murfAudioChunks murfSourceNode app] in Hm2.
  pose proof (tts_chunks_append_log evs' later s1 HF' Hp1) as Hl2.
  fold s2 in Hl2.
  destruct (tts_done_run done s2 Hd) as (buf & Hb & Hrun).
  rewrite Hm2 in Hb, Hrun.
  cbn [murfAudioCtx murfAudioChunks length Nat.eqb negb andb] in Hb, Hrun.
  exists buf. split; [exact Hb|]. rewrite Hrun. cbv zeta.
  split; [|reflexivity].
  erewrite (since_app st _ (l ++ [DecodeAudioData buf;
                                   Console (js "[client] TTS streaming done")])).
  - unfold decoded_buffers. rewrite omap_app. fold (decoded_buffers l).
    now rewrite Hdl.
  - cbn [emit with_murf log]. rewrite Hl2, Hl. now rewrite <- !app_assoc.
Qed.

Lemma tts_turn_decodes_once_witness :
  let chunk d := mkMessage (Text []) (TtsChunk (mkBase64 [] (Some d))) in
  let evs := [chunk (riff_header ++ [Byte.x01]); chunk (riff_header ++ [Byte.x02])] in
  let done := mkMessage (Text []) TtsDone in
  exists buf,
    fullAudio ((riff_header ++ [Byte.x01])
               :: map strip_repeated_header [riff_header ++ [Byte.x02]])
    = Some buf
    /\ decoded_buffers (since initial (onmessages (evs ++ [done]) initial))
       = [buf]
    /\ murfPlaying (murf (onmessages (evs ++ [done]) initial)) = false.
Proof.
  apply (tts_turn_decodes_once
           [mkMessage (Text []) (TtsChunk (mkBase64 [] (Some (riff_header ++ [Byte.x01]))));
            mkMessage (Text []) (TtsChunk (mkBase64 [] (Some (riff_header ++ [Byte.x02]))))]
           (riff_header ++ [Byte.x01]) [riff_header ++ [Byte.x02]]
           (mkMessage (Text []) TtsDone) initial).
  - repeat constructor; eexists; split; reflexivity.
  - reflexivity.
  - reflexivity.
  - reflexivity.
Defined.

(** ** The reconciler under every message *)

Lemma Idle_view base st st' : same_view st st' -> Idle base st -> Idle base st'.
Proof. intros [Hr Hc] (Hl & Hp & Hb). unfold Idle. now rewrite Hr, Hc. Qed.

Lemma Live_view base shown st st' :
  same_view st st' -> Live base shown st -> Live base shown st'.
Proof. intros [Hr Hc] (Hl & Hp & Hb). unfold Live. now rewrite Hr, Hc. Qed.

Lemma pushMurfAudioChunk_view b64 st st1 :
  pushMurfAudioChunk b64 st = Normal st1 -> same_view st st1.
Proof.
  unfold pushMurfAudioChunk. destruct (atob b64); [|discriminate].
  intros H. injection H as <-. now split.
Qed.

(** A message either takes the raw-text path, from a state the
    reconciler cannot tell from the one it arrived in, or leaves the
    reconciler alone, or is a turn end. *)
Lemma onmessage_cases ev st :
  (exists st1, same_view st st1 /\ onmessage ev st = onPartial (data ev) st1)
  \/ same_view st (onmessage ev st)
  \/ (exists t r, parsed ev = TurnEnd t r /\ onmessage ev st = onTurnEnd t r st).
Proof.
  unfold onmessage. destruct (parsed ev) as [| |b64| |t r] eqn:Hp.
  - left. exists st. now split.
  - left. exists st. now split.
  - assert (Hstart :
      exists st1, same_view st st1
        /\ ((if negb (murfPlaying (murf st)) then initMurfStreamPlayback st
             else Normal st) = Normal st1
            \/ (if negb (murfPlaying (murf st)) then initMurfStreamPlayback st
                else Normal st) = Throw st1)).
    { destruct (negb (murfPlaying (murf st)));
        [|exists st; split; [now split | now left]].
      destruct (initMurfStreamPlayback st) as [st1|st1] eqn:Hi.
      - exists st1. split; [|now left].
        destruct (initMurfStreamPlayback_view st st1 Hi) as (Hr & Hc & _).
        now split.
      - exists st1. apply initMurfStreamPlayback_throws in Hi. subst st1.
        split; [now split | now right]. }
    destruct Hstart as (st1 & Hv & [-> | ->]);
      [|left; exists st1; now split].
    destruct (pushMurfAudioChunk b64 st1) as [st2|st2] eqn:Hpush.
    + right; left. apply pushMurfAudioChunk_view in Hpush.
      destruct Hv as [Hr Hc], Hpush as [Hr' Hc']. split; congruence.
    + left. apply pushMurfAudioChunk_throws in Hpush as [-> _].
      exists st1. now split.
  - right; left.
    destruct (finalizeMurfStream_run st) as (buf & _ & _ & ->). cbv zeta.
    now destruct (murfAudioCtx (murf st) && _).
  - right; right. now exists t, r.
Qed.

(** X10.  A [tts_chunk] whose payload [atob] rejects is not dropped:
    the exception is swallowed as if the message were no JSON, and its
    text is shown as a partial transcript in the live row. *)
Theorem undecodable_chunk_is_shown_as_text (base : list Row) (st : State)
    (ev : MessageEvent) (b64 : Base64) (raw : jsstring) :
  Idle base st ->
  parsed ev = TtsChunk b64 ->
  atob b64 = None ->
  data ev = Text raw ->
  normalizeTranscript raw <> [] ->
  Live base (normalizeTranscript raw) (onmessage ev st)
  /\ murfAudioChunks (murf (onmessage ev st))
     = (if murfPlaying (murf st) || negb (audio_available st)
        then murfAudioChunks (murf st) else []).
Proof.
  intros HI Hp Ha Hd Hn.
  assert (Hraw : truthy (trim raw) = true).
  { destruct (truthy (trim raw)) eqn:E; [reflexivity|].
    now apply normalizeTranscript_blank in E. }
  assert (Hstep : forall st1, Idle base st1 ->
            Live base (normalizeTranscript raw) (onPartial (Text raw) st1)).
  { intros st1 HI1.
    destruct (onPartial_idle base raw st1 HI1 Hraw) as [[E _]|[_ HL]];
      [contradiction | exact HL]. }
  unfold onmessage. rewrite Hp, Hd.
  unfold pushMurfAudioChunk. rewrite Ha.
  destruct (murfPlaying (murf st)) eqn:Hplay; cbn [negb orb].
  - split; [now apply Hstep | now rewrite murf_onPartial].
  - unfold audio_available.
    destruct (initMurfStreamPlayback st) as [st1|st1] eqn:Hi.
    + destruct (initMurfStreamPlayback_view st st1 Hi) as (Hr & Hc & _).
      split; [apply Hstep; now apply (Idle_view base st)|].
      rewrite murf_onPartial. revert Hi. unfold initMurfStreamPlayback.
      destruct (negb (murfAudioCtx (murf st))
                && negb (constructs (audioContext (dom st)))) eqn:E;
        [discriminate|].
      intros H. injection H as <-. rewrite murf_set_status.
      cbn [with_murf murf murfAudioChunks].
      replace (murfAudioCtx (murf st) || constructs (audioContext (dom st)))
        with true
        by (destruct (murfAudioCtx (murf st)),
              (constructs (audioContext (dom st))); cbn in *; congruence).
      cbn [negb].
      now destruct (murfSourceNode (murf st)).
    + pose proof Hi as Hi'. apply initMurfStreamPlayback_throws in Hi'.
      subst st1. split; [now apply Hstep|]. rewrite murf_onPartial.
      revert Hi. unfold initMurfStreamPlayback.
      destruct (murfAudioCtx (murf st)),
        (constructs (audioContext (dom st))); cbn; congruence.
Qed.

Lemma undecodable_chunk_is_shown_as_text_witness :
  let ev := mkMessage (Text (js "{tts_chunk}"))
                      (TtsChunk (mkBase64 (js "!") None)) in
  Live [] (normalizeTranscript (js "{tts_chunk}")) (onmessage ev initial)
  /\ murfAudioChunks (murf (onmessage ev initial)) = [].
Proof.
  apply (undecodable_chunk_is_shown_as_text [] initial
           (mkMessage (Text (js "{tts_chunk}"))
                      (TtsChunk (mkBase64 (js "!") None)))
           (mkBase64 (js "!") None) (js "{tts_chunk}")).
  - repeat split.
  - reflexivity.
  - reflexivity.
  - reflexivity.
  - discriminate.
Defined.

Lemma onTurnEnd_finalises base shown transcript llm_response st :
  Live base shown st ->
  Idle (base ++ [mkRow user (final_text transcript shown) true None]
             ++ agent_rows llm_response)
       (onTurnEnd transcript llm_response st).
Proof.
  intros HL.
  destruct (present transcript) eqn:Hpres.
  - destruct transcript as [t|]; [|discriminate]. cbn [present] in Hpres.
    destruct HL as (Hl & Hp & Hc).
    unfold final_text, onTurnEnd. rewrite Hpres, Hl. cbn [andb].
    set (n := normalizeTranscript t).
    set (marked := mark_final (length base)
                     (if truthy n then set_bubble_text (length base) n st
                      else st)).
    assert (Hmarked :
      chatMessages (dom marked)
      = Some (base ++ [mkRow user (if truthy n then n else shown) true None])).
    { unfold marked, mark_final, set_bubble_text, update_row.
      destruct (truthy n); cbn [with_dom dom chatMessages];
        rewrite Hc; cbn [option_map]; rewrite ?alter_last; cbn;
        rewrite ?alter_last; reflexivity. }
    destruct (truthy n) eqn:Hn; cbn [present]; rewrite ?Hn; fold marked;
      unfold Idle; cbn [with_reco reco dom liveRow lastPartial];
      (split; [reflexivity|]); (split; [reflexivity|]);
      unfold agent_rows; destruct (present llm_response);
      rewrite ?app_nil_r; unfold addMsg;
      autorewrite with status_frame; rewrite ?Hmarked;
      cbn [fst with_dom dom chatMessages];
      autorewrite with status_frame; rewrite ?Hmarked;
      rewrite <- ?app_assoc; auto.
  - replace (final_text transcript shown) with shown.
    + now apply onTurnEnd_live.
    + unfold final_text. destruct transcript as [t|]; [|reflexivity].
      cbn [present] in Hpres. now rewrite Hpres.
Qed.

Lemma onTurnEnd_idle base transcript llm_response st :
  Idle base st ->
  exists more, Idle (base ++ more) (onTurnEnd transcript llm_response st).
Proof.
  intros (Hl & Hp & Hc). unfold onTurnEnd. rewrite Hl, Hp. cbn [truthy].
  set (finalText :=
         match transcript with
         | Some t => if truthy t then Some (normalizeTranscript t) else None
         | None => None
         end).
  replace (match transcript with
           | Some t =>
               if truthy t then Some (normalizeTranscript t)
               else None
           | None => None
           end) with finalText by reflexivity.
  assert (Hfirst : exists rows1 st1 live,
            (if present finalText then addMsg user finalText None st
             else (st, None)) = (st1, live)
            /\ chatMessages (dom (match live with
                                  | Some i => mark_final i st1
                                  | None => st1
                                  end)) = Some (base ++ rows1)).
  { destruct (present finalText).
    - unfold addMsg. rewrite Hc. eexists _, _, _. split; [reflexivity|].
      unfold mark_final, update_row. cbn [with_dom dom chatMessages option_map].
      now rewrite alter_last.
    - exists [], st, None. split; [reflexivity|]. now rewrite app_nil_r. }
  destruct Hfirst as (rows1 & st1 & live & -> & Hmarked).
  set (marked := match live with Some i => mark_final i st1 | None => st1 end)
    in *.
  destruct (present llm_response).
  - exists (rows1 ++ [mkRow agent (bubble_text agent llm_response) false None]).
    unfold Idle. cbn [with_reco reco dom liveRow lastPartial].
    split; [reflexivity|]. split; [reflexivity|].
    unfold addMsg. autorewrite with status_frame. rewrite Hmarked.
    cbn [fst with_dom dom chatMessages]. now rewrite <- app_assoc.
  - exists rows1. unfold Idle. cbn [with_reco reco dom liveRow lastPartial].
    split; [reflexivity|]. split; [reflexivity|].
    now autorewrite with status_frame.
Qed.

Lemma onPartial_reconciled base d st :
  Reconciled base st -> Reconciled base (onPartial d st).
Proof.
  intros (more & H). exists more.
  destruct d as [raw|]; [|exact H].
  destruct (truthy (trim raw)) eqn:Hraw;
    [|now rewrite onPartial_ignored].
  destruct H as [HI|(shown & HL)].
  - destruct (onPartial_idle (base ++ more) raw st HI Hraw)
      as [[_ ->]|[_ HL]]; [now left | right; eauto].
  - right. exists (normalizeTranscript raw).
    now apply (onPartial_live (base ++ more) shown).
Qed.

Lemma Reconciled_view base st st' :
  same_view st st' -> Reconciled base st -> Reconciled base st'.
Proof.
  intros Hv (more & [HI|(shown & HL)]); exists more.
  - left. now apply (Idle_view _ st).
  - right. exists shown. now apply (Live_view _ _ st).
Qed.

Lemma onmessage_reconciled base ev st :
  Reconciled base st -> Reconciled base (onmessage ev st).
Proof.
  intros HR.
  destruct (onmessage_cases ev st)
    as [(st1 & Hv & ->)|[Hv|(t & r & _ & ->)]].
  - apply onPartial_reconciled. now apply (Reconciled_view base st).
  - now apply (Reconciled_view base st).
  - destruct HR as (more & [HI|(shown & HL)]).
    + destruct (onTurnEnd_idle (base ++ more) t r st HI) as (more' & HI').
      exists (more ++ more'). left. now rewrite app_assoc.
    + eexists. left. rewrite app_assoc.
      now apply (onTurnEnd_finalises (base ++ more) shown).
Qed.

(** X11.  Whatever messages arrive, in whatever order, the reconciler
    stays in order: the rows the chat held are kept as they were, in
    front of the rows added since, and either no utterance is in
    progress, with no partial remembered, or the last row of the chat
    is the live one: a user row, not final, showing the last
    partial. *)
Theorem reconciler_stays_in_order (base : list Row)
    (evs : list MessageEvent) (st : State) :
  Reconciled base st -> Reconciled base (onmessages evs st).
Proof.
  revert st. induction evs as [|ev evs IH]; intros st HR; [exact HR|].
  cbn [onmessages fold_left]. fold (onmessages evs (onmessage ev st)).
  now apply IH, onmessage_reconciled.
Qed.

Lemma reconciler_stays_in_order_witness :
  Reconciled []
    (onmessages [partial (js "good"); mkMessage (Text []) TtsDone;
                 mkMessage (Text []) (TurnEnd None (Some (js "hi")));
                 partial (js "next")] initial).
Proof.
  apply (reconciler_stays_in_order [] _ initial).
  exists []. left. repeat split.
Defined.

(** X12.  A turn end closes the live row, whatever it carries: the
    row is marked final and shows the normalised transcript of the
    event when that is not empty, and otherwise the last partial; the
    rows before it are untouched, the row of the response follows
    when there is one, and the reconciler is ready for the next
    utterance. *)
Theorem turn_end_finalises_live_row (base : list Row) (shown : jsstring)
    (st : State) (ev : MessageEvent)
    (transcript llm_response : option jsstring) :
  Live base shown st ->
  parsed ev = TurnEnd transcript llm_response ->
  Idle (base ++ [mkRow user (final_text transcript shown) true None]
             ++ agent_rows llm_response)
       (onmessage ev st).
Proof.
  intros HL Hev. unfold onmessage. rewrite Hev.
  now apply onTurnEnd_finalises.
Qed.

Lemma turn_end_finalises_live_row_witness :
  let st := onmessage (partial (js "helo wrld")) initial in
  let ev := mkMessage (Text [])
              (TurnEnd (Some (js " hello  world ")) None) in
  Idle ([] ++ [mkRow user (final_text (Some (js " hello  world "))
                                      (js "helo wrld")) true None]
           ++ agent_rows None)
       (onmessage ev st).
Proof.
  apply (turn_end_finalises_live_row [] (js "helo wrld")
           (onmessage (partial (js "helo wrld")) initial)
           (mkMessage (Text []) (TurnEnd (Some (js " hello  world ")) None))
           (Some (js " hello  world ")) None).
  - repeat split.
  - reflexivity.
Defined.

(** ** The end of a playback *)

Lemma onSourceEnded_run st :
  murf (onSourceEnded st)
  = mkMurf false (murfAudioChunks (murf st)) (murfPlaying (murf st))
           (murfFirstChunk (murf st)) false
  /\ audioContext (dom (onSourceEnded st)) = audioContext (dom st)
  /\ exists l, log (onSourceEnded st) = log st ++ l /\ decoded_buffers l = [].
Proof.
  unfold onSourceEnded, set_status.
  destruct (llmStatus (dom st));
    cbn [with_murf with_dom emit murf dom log audioContext];
    (split; [reflexivity|]); (split; [reflexivity|]).
  - now exists [SetStatus []].
  - exists []. now rewrite app_nil_r.
Qed.

(** X13.  When the playback of a turn ends, the audio context is
    given up.  An end-of-stream that comes next decodes nothing,
    however many fragments are waiting in the buffer: they stay
    there unplayed, and the next fragment to arrive, which begins a
    new buffer, discards them. *)
Theorem playback_end_drops_waiting_fragments (done : MessageEvent)
    (st : State) :
  parsed done = TtsDone ->
  let st' := onmessage done (onSourceEnded st) in
  decoded_buffers (since st st') = []
  /\ murfAudioCtx (murf st') = false
  /\ murfAudioChunks (murf st') = murfAudioChunks (murf st)
  /\ (forall (next : MessageEvent) (decoded : bytes),
        chunk_event next decoded ->
        constructs (audioContext (dom st)) = true ->
        murfAudioChunks (murf (onmessage next st')) = [decoded]).
Proof.
  intros Hd st'. subst st'.
  destruct (onSourceEnded_run st) as (Hm & Hctx & l & Hl & Hdec).
  destruct (tts_done_run done (onSourceEnded st) Hd) as (buf & _ & Hrun).
  rewrite Hm in Hrun. cbn [murfAudioCtx andb] in Hrun. cbv zeta in Hrun.
  rewrite Hrun.
  split.
  { erewrite (since_app st _ (l ++ [Console (js "[client] TTS streaming done")])).
    - unfold decoded_buffers in *. now rewrite omap_app, Hdec.
    - cbn [emit with_murf log]. now rewrite Hl, app_assoc. }
  cbn [emit with_murf murf murfAudioCtx murfAudioChunks]. rewrite Hm.
  split; [reflexivity|]. split; [reflexivity|].
  intros next decoded (b64 & Hp & Ha) Hc.
  erewrite (tts_chunk_begins next b64 decoded); [reflexivity|exact Hp|exact Ha| |].
  - cbn [emit with_murf murf murfPlaying]. reflexivity.
  - cbn [emit with_murf murf dom murfAudioCtx]. rewrite Hctx, Hc.
    apply orb_true_r.
Qed.

Lemma playback_end_drops_waiting_fragments_witness :
  let chunk d := mkMessage (Text []) (TtsChunk (mkBase64 [] (Some d))) in
  let done := mkMessage (Text []) TtsDone in
  (* the second turn begins while the first is still being decoded *)
  let st := onDecoded (onmessages [chunk [Byte.x01]; done; chunk [Byte.x02]]
                         initial) in
  let st' := onmessage done (onSourceEnded st) in
  decoded_buffers (since st st') = []
  /\ murfAudioCtx (murf st') = false
  /\ murfAudioChunks (murf st') = [[Byte.x02]]
  /\ murfAudioChunks (murf (onmessage (chunk [Byte.x03]) st')) = [[Byte.x03]].
Proof.
  cbv zeta.
  destruct (playback_end_drops_waiting_fragments
              (mkMessage (Text []) TtsDone)
              (onDecoded
                 (onmessages
                    [mkMessage (Text []) (TtsChunk (mkBase64 [] (Some [Byte.x01])));
                     mkMessage (Text []) TtsDone;
                     mkMessage (Text []) (TtsChunk (mkBase64 [] (Some [Byte.x02])))]
                    initial))
              eq_refl) as (H1 & H2 & H3 & H4).
  split; [exact H1|]. split; [exact H2|]. split; [exact H3|].
  apply H4; [|reflexivity]. eexists. split; reflexivity.
Defined.

(** X24.  A new turn interrupts the one that is playing: the
    fragment that begins a turn stops the source of the turn before,
    once, before anything else, and forgets it.  A fragment that
    arrives while a turn is accumulating stops nothing: it has no
    effect outside the buffer. *)
Theorem new_turn_interrupts_playback (ev : MessageEvent) (decoded : bytes)
    (st : State) :
  chunk_event ev decoded ->
  murfPlaying (murf st) = false ->
  audio_available st = true ->
  murfSourceNode (murf st) = true ->
  let st' := onmessage ev st in
  since st st'
  = StopSource
    :: match llmStatus (dom st) with
       | Some _ => [SetStatus (js "Buffering Murf audio" ++ [ELLIPSIS])]
       | None => []
       end
  /\ murfSourceNode (murf st') = false
  /\ murfAudioChunks (murf st') = [decoded]
  /\ (forall later : bytes, forall next : MessageEvent,
        chunk_event next later -> since st' (onmessage next st') = []).
Proof.
  intros (b64 & Hp & Ha) Hplay Hav Hnode st'. subst st'.
  pose proof (tts_chunk_begins ev b64 decoded st Hp Ha Hplay Hav) as Hm.
  split.
  { unfold onmessage. rewrite Hp, Hplay. cbn [negb].
    unfold initMurfStreamPlayback, audio_available in *.
    replace (negb (murfAudioCtx (murf st))
             && negb (constructs (audioContext (dom st)))) with false
      by (destruct (murfAudioCtx (murf st)),
            (constructs (audioContext (dom st))); cbn in *; congruence).
    unfold pushMurfAudioChunk. rewrite Ha. unfold set_status.
    cbn [with_murf murf murfSourceNode dom llmStatus]. rewrite Hnode.
    cbn [with_murf emit murf dom llmStatus].
    destruct (llmStatus (dom st));
      cbn [with_murf with_dom emit murf dom llmStatus log];
      now since_compute st. }
  rewrite Hm. cbn [murfSourceNode murfAudioChunks].
  split; [reflexivity|]. split; [reflexivity|].
  intros later next (b64' & Hp' & Ha').
  apply since_app. rewrite app_nil_r.
  apply (tts_chunk_appends_log next b64' later); auto.
  now rewrite Hm.
Qed.

Lemma new_turn_interrupts_playback_witness :
  let chunk d := mkMessage (Text []) (TtsChunk (mkBase64 [] (Some d))) in
  let done := mkMessage (Text []) TtsDone in
  (* the first turn is playing *)
  let st := onDecoded (onmessages [chunk [Byte.x01]; done] initial) in
  let st' := onmessage (chunk [Byte.x02]) st in
  since st st'
  = [StopSource; SetStatus (js "Buffering Murf audio" ++ [ELLIPSIS])]
  /\ murfSourceNode (murf st') = false
  /\ murfAudioChunks (murf st') = [[Byte.x02]]
  /\ since st' (onmessage (chunk [Byte.x03]) st') = [].
Proof.
  cbv zeta.
  destruct (new_turn_interrupts_playback
              (mkMessage (Text []) (TtsChunk (mkBase64 [] (Some [Byte.x02]))))
              [Byte.x02]
              (onDecoded
                 (onmessages
                    [mkMessage (Text []) (TtsChunk (mkBase64 [] (Some [Byte.x01])));
                     mkMessage (Text []) TtsDone] initial)))
    as (H1 & H2 & H3 & H4).
  - eexists. split; reflexivity.
  - reflexivity.
  - reflexivity.
  - reflexivity.
  - split; [exact H1|]. split; [exact H2|]. split; [exact H3|].
    apply (H4 [Byte.x03]). eexists. split; reflexivity.
Defined.

(** ** The microphone toggle, once the keys are there *)

(** The unlock leaves the assembler and the reconciler alone. *)
Lemma unlockAudioIfNeeded_others st :
  murf (unlockAudioIfNeeded st) = murf st
  /\ reco (unlockAudioIfNeeded st) = reco st.
Proof.
  unfold unlockAudioIfNeeded.
  destruct (audioUnlocked (gate st)); [now split|].
  destruct (audioContext (dom st)); unfold flushPending;
    cbn [with_gate emit gate pendingAutoPlayUrl];
    (destruct (pendingAutoPlayUrl (gate st)) as [u|];
     [destruct (truthy u)|]);
    unfold playAgentAudio;
    cbn [with_gate emit gate dom audioUnlocked agentAudio negb andb];
    try destruct (negb (agentAudio (dom st)) || negb (truthy u));
    now split.
Qed.

(** With the keys there, [toggleMic] hides the prompt, unlocks the
    audio and stops or starts the session from the state [st2] this
    leaves: [st] but for the gate and the log. *)
Lemma toggleMic_with_keys env st :
  missing_keys mic (keys env) = [] ->
  exists st2 lu,
    toggleMic env st
    = (if streaming (stream st) then stopStreaming st2
       else startStreaming env st2)
    /\ log st2 = log st ++ [HidePrompt] ++ lu
    /\ session_trace lu = []
    /\ stream st2 = stream st /\ dom st2 = dom st
    /\ murf st2 = murf st /\ reco st2 = reco st.
Proof.
  intros Hkeys. unfold toggleMic, requireKeysOrPrompt. rewrite Hkeys.
  cbn [negb]. set (st1 := emit HidePrompt st).
  destruct (unlockAudioIfNeeded_frame st1) as (lu & Hlog & Hlu & Hs & Hd).
  destruct (unlockAudioIfNeeded_others st1) as (Hm & Hr).
  exists (unlockAudioIfNeeded st1), lu.
  rewrite Hs, Hlog, Hd, Hm, Hr.
  repeat split; auto. cbn [st1 emit log]. now rewrite <- app_assoc.
Qed.

Lemma since_trans st st2 st3 l1 l2 :
  log st2 = log st ++ l1 -> since st2 st3 = l2 ->
  (exists l, log st3 = log st2 ++ l) ->
  since st st3 = l1 ++ l2.
Proof.
  intros H1 H2 (l & Hl). rewrite (since_app st2 st3 l Hl) in H2. subst l.
  apply since_app. now rewrite Hl, H1, app_assoc.
Qed.

Ltac stream_cbn :=
  cbn [with_stream with_reco with_dom emit dom stream reco llmStatus
       chatMessages audioContext streamWS streamMedia sockets tracksLive
       streaming isMicRecording capturing].




Lemma alter_open (l : list ReadyState) : forall i : nat,
  l !! i = Some OPEN -> alter closed_by_script i l = <[i := CLOSING]> l.
Proof.
  induction l as [|r l IH]; intros [|i] H; try discriminate.
  - injection H as ->. reflexivity.
  - cbn. f_equal. now apply IH.
Qed.

(** A stop, from the state the unlock leaves. *)
Lemma stopStreaming_run st :
  let st' := stopStreaming st in
  (exists l, log st' = log st ++ l)
  /\ session_trace (since st st')
     = match streamMedia (stream st) with
       | Some _ => [StopTracks]
       | None => []
       end
       ++ match open_socket st with
          | Some id => [WsClose id]
          | None => []
          end
       ++ match llmStatus (dom st) with
          | Some _ => [SetStatus []; UiSound false; SetStatus []]
          | None => [UiSound false]
          end
  /\ stream st'
     = mkStream (streamWS (stream st))
         match open_socket st with
         | Some id => <[id := CLOSING]> (sockets (stream st))
         | None => sockets (stream st)
         end
         (streamMedia (stream st))
         match streamMedia (stream st) with
         | Some m => <[m := false]> (tracksLive (stream st))
         | None => tracksLive (stream st)
         end
         false false (capturing (stream st))
  /\ reco st' = reco st
  /\ chatMessages (dom st') = chatMessages (dom st)
  /\ llmStatus (dom st')
     = match llmStatus (dom st) with
       | Some _ => Some []
       | None => None
       end.
Proof.
  intros st'. subst st'.
  unfold stopStreaming, open_socket, readyState, stop_tracks, close_socket,
    setMicState, set_status.
  destruct (streamMedia (stream st)) as [m|] eqn:Hm; stream_cbn;
    destruct (streamWS (stream st)) as [id|] eqn:Hid; stream_cbn;
    try (destruct (sockets (stream st) !! id) as [[]|] eqn:Hr); stream_cbn;
    destruct (llmStatus (dom st)) as [old|] eqn:Hst; stream_cbn;
    rewrite ?Hst; stream_cbn;
    (split; [eexists; log_norm; first [reflexivity | symmetry; apply app_nil_r]|]);
    since_compute st; rewrite ?Hm, ?Hid;
    try rewrite (alter_open _ _ Hr);
    repeat split; auto.
Qed.

(** X15.  With the keys there and a session streaming, [toggleMic]
    stops it: the tracks of the current media stream are stopped and
    the current socket is closed when it is open, and only then; a
    socket that is still connecting is left alone.  No socket is
    created and the microphone is not asked for.  The flags
    [streaming] and [isMicRecording] are cleared and the status line
    emptied; the references to the socket and the media stream, the
    capture graph, the reconciler and the chat stay as they were. *)
Theorem toggleMic_stops_session (env : MicEnv) (st : State) :
  missing_keys mic (keys env) = [] ->
  streaming (stream st) = true ->
  let st' := toggleMic env st in
  session_trace (since st st')
  = match streamMedia (stream st) with
    | Some _ => [StopTracks]
    | None => []
    end
    ++ match open_socket st with
       | Some id => [WsClose id]
       | None => []
       end
    ++ match llmStatus (dom st) with
       | Some _ => [SetStatus []; UiSound false; SetStatus []]
       | None => [UiSound false]
       end
  /\ stream st'
     = mkStream (streamWS (stream st))
         match open_socket st with
         | Some id => <[id := CLOSING]> (sockets (stream st))
         | None => sockets (stream st)
         end
         (streamMedia (stream st))
         match streamMedia (stream st) with
         | Some m => <[m := false]> (tracksLive (stream st))
         | None => tracksLive (stream st)
         end
         false false (capturing (stream st))
  /\ reco st' = reco st
  /\ chatMessages (dom st') = chatMessages (dom st)
  /\ llmStatus (dom st')
     = match llmStatus (dom st) with
       | Some _ => Some []
       | None => None
       end.
Proof.
  intros Hkeys Hstr st'. subst st'.
  destruct (toggleMic_with_keys env st Hkeys)
    as (st2 & lu & -> & Hlog & Hlu & Hs & Hd & _ & Hr).
  rewrite Hstr.
  destruct (stopStreaming_run st2)
    as (Hext & Htrace & Hstream & Hreco & Hchat & Hstatus).
  assert (Hopen : open_socket st2 = open_socket st)
    by (unfold open_socket, readyState; now rewrite Hs).
  rewrite Hopen, Hs, Hd, ?Hr in *.
  split; [|now repeat split].
  rewrite (since_trans st st2 _ _ _ Hlog eq_refl Hext).
  rewrite !session_trace_app, Hlu, Htrace. reflexivity.
Qed.

Lemma toggleMic_stops_session_witness :
  let connecting := toggleMic (mkMicEnv filled_keys Granted CONNECTING) initial in
  let opened := toggleMic (mkMicEnv filled_keys Granted OPEN) initial in
  let env := mkMicEnv filled_keys Granted OPEN in
  (session_trace (since connecting (toggleMic env connecting))
   = [StopTracks] ++ [] ++ [SetStatus []; UiSound false; SetStatus []]
   /\ sockets (stream (toggleMic env connecting)) = [CONNECTING])
  /\ session_trace (since opened (toggleMic env opened))
     = [StopTracks] ++ [WsClose 0] ++ [SetStatus []; UiSound false; SetStatus []]
  /\ sockets (stream (toggleMic env opened)) = [CLOSING]
  /\ tracksLive (stream (toggleMic env opened)) = [false].
Proof.
  cbv zeta. split.
  - destruct (toggleMic_stops_session (mkMicEnv filled_keys Granted OPEN)
                (toggleMic (mkMicEnv filled_keys Granted CONNECTING) initial)
                eq_refl eq_refl) as (H1 & H2 & _).
    split; [exact H1|]. now rewrite H2.
  - destruct (toggleMic_stops_session (mkMicEnv filled_keys Granted OPEN)
                (toggleMic (mkMicEnv filled_keys Granted OPEN) initial)
                eq_refl eq_refl) as (H1 & H2 & _).
    split; [exact H1|]. now rewrite H2.
Defined.




(** ** Runs: what every sequence of events keeps *)

Ltac state_cbn :=
  cbn [with_stream with_reco with_dom with_murf with_gate emit
       dom murf gate reco stream log
       llmStatus chatMessages agentAudio audioContext dateNow
       murfAudioCtx murfAudioChunks murfPlaying murfFirstChunk murfSourceNode
       audioUnlocked pendingAutoPlayUrl liveRow lastPartial lastDisplayedFinal
       streamWS streamMedia sockets tracksLive streaming isMicRecording
       capturing fst snd after negb].

Ltac break_match :=
  match goal with
  | |- context [match ?x with _ => _ end] =>
      lazymatch x with
      | context [match _ with _ => _ end] => fail
      | _ => first [ match goal with H : x = _ |- _ => rewrite H end
                   | destruct x eqn:? ]
      end
  end.

Ltac break_all := repeat (state_cbn; break_match); state_cbn.

Ltac quiet_done :=
  split; [reflexivity|]; split; [auto|];
  eexists; split;
  [ rewrite <- ?app_assoc; cbn [app];
    first [reflexivity | symmetry; apply app_nil_r]
  | reflexivity ].

Lemma Quiet_refl st : Quiet st st.
Proof. unfold Quiet. quiet_done. Qed.

Lemma Quiet_trans st1 st2 st3 : Quiet st1 st2 -> Quiet st2 st3 -> Quiet st1 st3.
Proof.
  intros (Hp & Hu & l & Hl & Ha) (Hp' & Hu' & l' & Hl' & Ha').
  split; [congruence|]. split; [auto|].
  exists (l ++ l'). split; [now rewrite Hl', Hl, app_assoc|].
  unfold agent_audio_trace in *. now rewrite List.filter_app, Ha, Ha'.
Qed.

Lemma Quiet_set_status s st : Quiet st (set_status s st).
Proof. unfold Quiet, set_status. break_all; quiet_done. Qed.

Lemma Quiet_addMsg r text url st : Quiet st (fst (addMsg r text url st)).
Proof. unfold Quiet, addMsg. break_all; quiet_done. Qed.

Lemma Quiet_onPartial d st : Quiet st (onPartial d st).
Proof.
  unfold Quiet, onPartial, addMsg, set_bubble_text, update_row, set_status.
  break_all; quiet_done.
Qed.

Lemma Quiet_onTurnEnd transcript llm_response st :
  Quiet st (onTurnEnd transcript llm_response st).
Proof.
  unfold Quiet, onTurnEnd, addMsg, set_bubble_text, mark_final, update_row,
    set_status.
  break_all; quiet_done.
Qed.

Lemma Quiet_emit e st : is_agent_audio_effect e = false -> Quiet st (emit e st).
Proof.
  intros He. split; [reflexivity|]. split; [auto|].
  exists [e]. split; [reflexivity|].
  unfold agent_audio_trace. cbn [List.filter]. now rewrite He.
Qed.

Lemma Quiet_initMurfStreamPlayback st :
  Quiet st (after (initMurfStreamPlayback st)).
Proof.
  unfold Quiet, initMurfStreamPlayback, set_status. break_all; quiet_done.
Qed.

Lemma Quiet_pushMurfAudioChunk b64 st :
  Quiet st (after (pushMurfAudioChunk b64 st)).
Proof. unfold Quiet, pushMurfAudioChunk. break_all; quiet_done. Qed.

Lemma Quiet_finalizeMurfStream st : Quiet st (after (finalizeMurfStream st)).
Proof. unfold Quiet, finalizeMurfStream. break_all; quiet_done. Qed.

Lemma Quiet_onmessage ev st : Quiet st (onmessage ev st).
Proof.
  unfold onmessage. destruct (parsed ev) as [| |b64| |t r].
  - apply Quiet_onPartial.
  - apply Quiet_onPartial.
  - assert (Hs : Quiet st (after (if negb (murfPlaying (murf st))
                                  then initMurfStreamPlayback st
                                  else Normal st))).
    { destruct (negb _); [apply Quiet_initMurfStreamPlayback|apply Quiet_refl]. }
    destruct (if negb (murfPlaying (murf st)) then _ else _) as [st1|st1];
      cbn [after] in Hs.
    + pose proof (Quiet_pushMurfAudioChunk b64 st1) as Hp.
      destruct (pushMurfAudioChunk b64 st1) as [st2|st2]; cbn [after] in Hp.
      * eapply Quiet_trans; eauto.
      * eapply Quiet_trans; [|apply Quiet_onPartial].
        eapply Quiet_trans; eauto.
    + eapply Quiet_trans; [exact Hs|apply Quiet_onPartial].
  - pose proof (Quiet_finalizeMurfStream st) as Hf.
    destruct (finalizeMurfStream st) as [st1|st1]; cbn [after] in Hf.
    + eapply Quiet_trans; [exact Hf|now apply Quiet_emit].
    + eapply Quiet_trans; [exact Hf|apply Quiet_onPartial].
  - apply Quiet_onTurnEnd.
Qed.

Lemma Quiet_unlockAudioIfNeeded st :
  pendingAutoPlayUrl (gate st) = None -> Quiet st (unlockAudioIfNeeded st).
Proof.
  intros Hn. unfold Quiet, unlockAudioIfNeeded, flushPending.
  break_all; rewrite ?Hn; quiet_done.
Qed.

Lemma Quiet_stopStreaming st : Quiet st (stopStreaming st).
Proof.
  unfold Quiet, stopStreaming, stop_tracks, close_socket, setMicState,
    set_status, readyState.
  break_all; quiet_done.
Qed.

Lemma Quiet_startStreaming env st : Quiet st (startStreaming env st).
Proof.
  unfold Quiet, startStreaming, startFailed, stop_tracks, close_socket,
    setMicState, set_status.
  break_all; quiet_done.
Qed.

Lemma Quiet_toggleMic env st :
  pendingAutoPlayUrl (gate st) = None -> Quiet st (toggleMic env st).
Proof.
  intros Hn. unfold toggleMic, requireKeysOrPrompt.
  destruct (missing_keys mic (keys env)); cbn [negb];
    [|now apply Quiet_emit].
  eapply Quiet_trans; [now apply (Quiet_emit HidePrompt)|].
  eapply Quiet_trans; [now apply Quiet_unlockAudioIfNeeded|].
  destruct (streaming _);
    [apply Quiet_stopStreaming|apply Quiet_startStreaming].
Qed.

Lemma Quiet_handle e st :
  pendingAutoPlayUrl (gate st) = None -> Quiet st (handle e st).
Proof.
  intros Hn. destruct e as [env|ev|inputData| | |]; cbn [handle].
  - now apply Quiet_toggleMic.
  - apply Quiet_onmessage.
  - unfold Quiet, onaudioprocess, readyState. break_all; quiet_done.
  - unfold Quiet, onDecoded, set_status. break_all; quiet_done.
  - apply Quiet_set_status.
  - unfold Quiet, onSourceEnded, set_status. break_all; quiet_done.
Qed.

Lemma Quiet_run events : forall st,
  pendingAutoPlayUrl (gate st) = None -> Quiet st (run events st).
Proof.
  induction events as [|e events IH]; intros st Hn; [apply Quiet_refl|].
  cbn [run fold_left]. fold (run events (handle e st)).
  pose proof (Quiet_handle e st Hn) as He.
  eapply Quiet_trans; [exact He|]. apply IH.
  destruct He as (Hp & _). now rewrite Hp.
Qed.

(** X17.  The script never plays the element [agentAudio] of its own
    accord.  In a run of mic toggles, socket messages, audio quanta,
    decode callbacks and source ends, from a state in which no URL is
    pending, the element is not paused, given no source and not
    played, and no URL becomes pending: nothing calls
    [playAgentAudio] but the flush of a pending URL.  A gate that is
    unlocked stays unlocked. *)
Theorem agent_audio_is_never_played (events : list Event) (st : State) :
  pendingAutoPlayUrl (gate st) = None ->
  let st' := run events st in
  agent_audio_trace (since st st') = []
  /\ pendingAutoPlayUrl (gate st') = None
  /\ (audioUnlocked (gate st) = true -> audioUnlocked (gate st') = true).
Proof.
  intros Hn st'. subst st'.
  destruct (Quiet_run events st Hn) as (Hp & Hu & l & Hl & Ha).
  rewrite (since_app st _ l Hl). rewrite Hp. auto.
Qed.

Lemma agent_audio_is_never_played_witness :
  let granting := mkMicEnv filled_keys Granted OPEN in
  let events :=
    [MicToggle granting;
     SocketMessage (partial (js "hello"));
     SocketMessage (mkMessage (Text [])
                      (TtsChunk (mkBase64 [] (Some riff_header))));
     SocketMessage (mkMessage (Text []) TtsDone);
     AudioDecoded;
     SocketMessage (mkMessage (Text [])
                      (TurnEnd (Some (js "hello")) (Some (js "hi"))));
     SourceEnded;
     MicToggle granting] in
  agent_audio_trace (since initial (run events initial)) = []
  /\ pendingAutoPlayUrl (gate (run events initial)) = None
  /\ audioUnlocked (gate (run events initial)) = true.
Proof.
  cbv zeta.
  match goal with
  | |- agent_audio_trace (since initial (run ?evs initial)) = [] /\ _ =>
      destruct (agent_audio_is_never_played evs initial eq_refl)
        as (H1 & H2 & _)
  end.
  split; [exact H1|]. split; [exact H2|reflexivity].
Defined.

(** *** The first-fragment flag *)

Lemma murf_onTurnEnd transcript llm_response st :
  murf (onTurnEnd transcript llm_response st) = murf st.
Proof.
  unfold onTurnEnd, addMsg, set_bubble_text, mark_final, update_row,
    set_status.
  break_all; reflexivity.
Qed.

Lemma murf_toggleMic env st : murf (toggleMic env st) = murf st.
Proof.
  unfold toggleMic, requireKeysOrPrompt.
  destruct (missing_keys mic (keys env)); cbn [negb]; [|reflexivity].
  destruct (unlockAudioIfNeeded_others (emit HidePrompt st)) as (Hm & _).
  transitivity (murf (unlockAudioIfNeeded (emit HidePrompt st)));
    [|exact Hm].
  generalize (unlockAudioIfNeeded (emit HidePrompt st)). intros st2.
  destruct (streaming (stream st2)).
  - unfold stopStreaming, stop_tracks, close_socket, setMicState,
      set_status, readyState.
    break_all; reflexivity.
  - unfold startStreaming, startFailed, stop_tracks, close_socket,
      setMicState, set_status.
    break_all; reflexivity.
Qed.

Lemma flag_tells_empty_onmessage ev st :
  flag_tells_empty (murf st) -> flag_tells_empty (murf (onmessage ev st)).
Proof.
  intros HJ. destruct (parsed ev) as [| |b64| |t r] eqn:Hp.
  - unfold onmessage. rewrite Hp. now rewrite murf_onPartial.
  - unfold onmessage. rewrite Hp. now rewrite murf_onPartial.
  - unfold onmessage. rewrite Hp.
    unfold initMurfStreamPlayback, pushMurfAudioChunk.
    break_all; rewrite ?murf_onPartial, ?murf_set_status; state_cbn;
      try exact HJ;
      unfold flag_tells_empty; state_cbn;
      (split; [discriminate || reflexivity
              |intros H; try reflexivity;
               now apply app_eq_nil in H as [_ H]]).
  - destruct (tts_done_run ev st Hp) as (buf & _ & ->). cbv zeta.
    destruct (murfAudioCtx (murf st) && _); exact HJ.
  - unfold onmessage. rewrite Hp. now rewrite murf_onTurnEnd.
Qed.

Lemma flag_tells_empty_handle e st :
  flag_tells_empty (murf st) -> flag_tells_empty (murf (handle e st)).
Proof.
  intros HJ. destruct e as [env|ev|inputData| | |]; cbn [handle].
  - now rewrite murf_toggleMic.
  - now apply flag_tells_empty_onmessage.
  - unfold onaudioprocess, readyState. break_all; exact HJ.
  - unfold onDecoded. break_all; rewrite ?murf_set_status; state_cbn;
      exact HJ.
  - unfold onDecodeError. now rewrite murf_set_status.
  - unfold onSourceEnded. state_cbn. rewrite murf_set_status. exact HJ.
Qed.

Lemma flag_tells_empty_run events : forall st,
  flag_tells_empty (murf st) -> flag_tells_empty (murf (run events st)).
Proof.
  induction events as [|e events IH]; intros st HJ; [exact HJ|].
  cbn [run fold_left]. fold (run events (handle e st)).
  now apply IH, flag_tells_empty_handle.
Qed.

(** X18.  In every run the first-fragment flag is set exactly when
    the buffer is empty, so the buffer alone tells what a fragment
    becomes: the fragment that enters an empty buffer is kept whole,
    header or not, and only a fragment that comes after another one
    loses a repeated header.  A fragment that arrives when no turn is
    accumulating begins a buffer of its own. *)
Theorem first_fragment_is_kept_whole (events : list Event) (st : State)
    (ev : MessageEvent) (decoded : bytes) :
  flag_tells_empty (murf st) ->
  chunk_event ev decoded ->
  let st' := run events st in
  flag_tells_empty (murf st')
  /\ (murfPlaying (murf st') = true ->
      murfAudioChunks (murf (onmessage ev st'))
      = match murfAudioChunks (murf st') with
        | [] => [decoded]
        | before => before ++ [strip_repeated_header decoded]
        end)
  /\ (murfPlaying (murf st') = false -> audio_available st' = true ->
      murfAudioChunks (murf (onmessage ev st')) = [decoded]).
Proof.
  intros HJ (b64 & Hp & Ha) st'. subst st'.
  pose proof (flag_tells_empty_run events st HJ) as HJ'.
  set (st' := run events st) in *.
  split; [exact HJ'|]. split.
  - intros Hplay.
    rewrite (tts_chunk_appends ev b64 decoded st' Hp Ha Hplay).
    cbn [murfAudioChunks]. rewrite <- strip_repeated_header_eq.
    destruct HJ' as [H1 H2].
    destruct (murfAudioChunks (murf st')) as [|c before] eqn:Hc.
    + now rewrite (H2 eq_refl).
    + destruct (murfFirstChunk (murf st')); [now specialize (H1 eq_refl)|].
      reflexivity.
  - intros Hplay Hav.
    now rewrite (tts_chunk_begins ev b64 decoded st' Hp Ha Hplay Hav).
Qed.

Lemma first_fragment_is_kept_whole_witness :
  let chunk d := mkMessage (Text []) (TtsChunk (mkBase64 [] (Some d))) in
  let broken := mkMessage (Text []) (TtsChunk (mkBase64 [] None)) in
  (* a turn whose first fragment could not be decoded *)
  let st' := run [SocketMessage broken] initial in
  murfPlaying (murf st') = true
  /\ murfAudioChunks (murf st') = []
  /\ murfAudioChunks (murf (onmessage (chunk (riff_header ++ [Byte.x05])) st'))
     = [riff_header ++ [Byte.x05]]
  /\ murfAudioChunks
       (murf (onmessages [chunk (riff_header ++ [Byte.x05]);
                          chunk (riff_header ++ [Byte.x06])] st'))
     = [riff_header ++ [Byte.x05]] ++ [[Byte.x06]].
Proof.
  cbv zeta.
  split; [reflexivity|]. split; [reflexivity|]. split.
  - destruct (first_fragment_is_kept_whole
                [SocketMessage (mkMessage (Text []) (TtsChunk (mkBase64 [] None)))]
                initial
                (mkMessage (Text [])
                   (TtsChunk (mkBase64 [] (Some (riff_header ++ [Byte.x05])))))
                (riff_header ++ [Byte.x05]))
      as (_ & H & _).
    + split; reflexivity.
    + eexists. split; reflexivity.
    + exact (H eq_refl).
  - destruct (first_fragment_is_kept_whole
                [SocketMessage (mkMessage (Text []) (TtsChunk (mkBase64 [] None)));
                 SocketMessage
                   (mkMessage (Text [])
                      (TtsChunk (mkBase64 [] (Some (riff_header ++ [Byte.x05])))))]
                initial
                (mkMessage (Text [])
                   (TtsChunk (mkBase64 [] (Some (riff_header ++ [Byte.x06])))))
                (riff_header ++ [Byte.x06]))
      as (_ & H & _).
    + split; reflexivity.
    + eexists. split; reflexivity.
    + exact (H eq_refl).
Defined.

(** ** The keys of the settings dialog *)

Lemma or_else_nil v : or_else v [] = v.
Proof. unfold or_else. now destruct v. Qed.

Lemma field_key_typed field : field_key field = typed field.
Proof. destruct field; [apply or_else_nil|reflexivity]. Qed.

Lemma storage_key_inj_name sid name other :
  storage_key sid name = storage_key sid other -> name = other.
Proof.
  unfold storage_key. intros H.
  now repeat apply app_inv_head in H.
Qed.

Lemma readSessionKey_write_same name value s :
  readSessionKey name (writeSessionKey name value s)
  = match sessionStorage s with Some _ => value | None => [] end.
Proof.
  unfold readSessionKey, writeSessionKey.
  destruct (sessionStorage s) as [items|] eqn:Hs;
    cbn [sessionStorage sessionId]; [|now rewrite Hs].
  rewrite fin_maps.lookup_insert_eq. apply or_else_nil.
Qed.

Lemma readSessionKey_write_other name other value s :
  other <> name ->
  readSessionKey other (writeSessionKey name value s) = readSessionKey other s.
Proof.
  intros Hne. unfold readSessionKey, writeSessionKey.
  destruct (sessionStorage s) as [items|] eqn:Hs;
    cbn [sessionStorage sessionId]; [|now rewrite Hs].
  rewrite fin_maps.lookup_insert_ne; [reflexivity|].
  intros H. apply Hne. symmetry. now apply storage_key_inj_name in H.
Qed.

(** X19.  A key written for the session is read back as written, and
    writing it changes no other key of the session.  In a browser
    that refuses access to the storage nothing is written and every
    key reads as the empty string. *)
Theorem session_key_round_trip (name value : jsstring) (s : Settings) :
  readSessionKey name (writeSessionKey name value s)
  = match sessionStorage s with Some _ => value | None => [] end
  /\ (forall other : jsstring, other <> name ->
        readSessionKey other (writeSessionKey name value s)
        = readSessionKey other s)
  /\ (sessionStorage s = None ->
      forall other : jsstring,
        readSessionKey other (writeSessionKey name value s) = []).
Proof.
  split; [apply readSessionKey_write_same|].
  split; [intros other; apply readSessionKey_write_other|].
  intros Hs other. unfold readSessionKey, writeSessionKey.
  now rewrite Hs, Hs.
Qed.

(** Two texts cut at the first occurrence of [c] agree part by part. *)
Lemma cut_at_first {A} (c : A) : forall (a b x y : list A),
  ~ In c a -> ~ In c b -> a ++ c :: x = b ++ c :: y -> a = b /\ x = y.
Proof.
  induction a as [|h a IH]; intros [|k b] x y Ha Hb H; cbn in H.
  - now injection H.
  - injection H as <- _. exfalso. apply Hb. now left.
  - injection H as -> _. exfalso. apply Ha. now left.
  - injection H as -> H.
    destruct (IH b x y) as [-> ->]; auto.
    + intros Hin. apply Ha. now right.
    + intros Hin. apply Hb. now right.
Qed.

Lemma key_names_no_underscore name : In name key_names -> ~ In 95 name.
Proof.
  intros H Hin. apply in_rev in Hin.
  cbn in H. destruct H as [<-|[<-|[<-|[<-|[<-|[]]]]]];
    vm_compute in Hin; intuition discriminate.
Qed.

Lemma storage_key_inj sid sid' name other :
  In name key_names -> In other key_names ->
  storage_key sid name = storage_key sid' other ->
  sid = sid' /\ name = other.
Proof.
  intros Hn Ho H. unfold storage_key in H. apply app_inv_head in H.
  apply (f_equal (@rev Z)) in H. rewrite !rev_app_distr in H.
  change (rev (js "_")) with [95] in H. rewrite <- !app_assoc in H.
  cbn [app] in H.
  apply cut_at_first in H.
  - destruct H as [H1 H2]. split.
    + now apply rev_inj.
    + now apply rev_inj.
  - rewrite <- in_rev. now apply key_names_no_underscore.
  - rewrite <- in_rev. now apply key_names_no_underscore.
Qed.

(** X20.  Sessions do not share keys: whatever the two session ids
    are, a key written on the page of one session changes none of
    the five keys read on the page of another session in the same
    tab. *)
Theorem sessions_do_not_share_keys (name other value sid : jsstring)
    (s : Settings) :
  In name key_names -> In other key_names ->
  sid <> sessionId s ->
  readSessionKey other (in_session sid (writeSessionKey name value s))
  = readSessionKey other (in_session sid s).
Proof.
  intros Hn Ho Hsid. unfold readSessionKey, in_session, writeSessionKey.
  destruct (sessionStorage s) as [items|] eqn:Hs;
    cbn [sessionStorage sessionId]; rewrite ?Hs; [|reflexivity].
  rewrite fin_maps.lookup_insert_ne; [reflexivity|].
  intros H. apply storage_key_inj in H; auto. destruct H as [H _].
  now apply Hsid.
Qed.

Lemma sessions_do_not_share_keys_witness :
  let s := mkSettings (js "a") (Some no_items) None None None None None in
  readSessionKey (js "AAI")
    (in_session (js "a_GEMINI") (writeSessionKey (js "GEMINI") (js "k") s))
  = readSessionKey (js "AAI") (in_session (js "a_GEMINI") s).
Proof.
  apply (sessions_do_not_share_keys (js "GEMINI") (js "AAI") (js "k")
           (js "a_GEMINI")
           (mkSettings (js "a") (Some no_items) None None None None None)).
  - cbn. auto.
  - cbn. auto.
  - discriminate.
Defined.

Lemma writeSessionKey_fields name value s :
  sessionId (writeSessionKey name value s) = sessionId s
  /\ keyGemini (writeSessionKey name value s) = keyGemini s
  /\ keyAAI (writeSessionKey name value s) = keyAAI s
  /\ keyMurf (writeSessionKey name value s) = keyMurf s
  /\ keyTavily (writeSessionKey name value s) = keyTavily s
  /\ keyOW (writeSessionKey name value s) = keyOW s
  /\ (sessionStorage (writeSessionKey name value s) = None
      <-> sessionStorage s = None).
Proof.
  unfold writeSessionKey.
  destruct (sessionStorage s) eqn:Hs;
    cbn [sessionId keyGemini keyAAI keyMurf keyTavily keyOW sessionStorage];
    rewrite ?Hs; repeat split; auto; discriminate.
Qed.

(** The keys stored by [saveSettings], read back one by one. *)
Lemma saveSettings_stored (s : Settings) :
  let stored field :=
    match sessionStorage s with Some _ => typed field | None => [] end in
  let s' := fst (saveSettings s) in
  readSessionKey (js "GEMINI") s' = stored (keyGemini s)
  /\ readSessionKey (js "AAI") s' = stored (keyAAI s)
  /\ readSessionKey (js "MURF") s' = stored (keyMurf s)
  /\ readSessionKey (js "TAVILY") s' = stored (keyTavily s)
  /\ readSessionKey (js "OW") s' = stored (keyOW s).
Proof.
  cbv zeta. unfold saveSettings.
  cbn [fst GEMINI_API_KEY ASSEMBLYAI_API_KEY MURF_API_KEY TAVILY_API_KEY
       OPENWEATHER_API_KEY].
  rewrite !field_key_typed.
  assert (Hsame : forall name value s0,
            (sessionStorage s0 = None <-> sessionStorage s = None) ->
            readSessionKey name (writeSessionKey name value s0)
            = match sessionStorage s with Some _ => value | None => [] end).
  { intros name value s0 Hiff. rewrite readSessionKey_write_same.
    destruct (sessionStorage s0), (sessionStorage s); auto;
      [now destruct Hiff as [_ H]; specialize (H eq_refl)
      |now destruct Hiff as [H _]; specialize (H eq_refl)]. }
  repeat split;
    rewrite ?readSessionKey_write_other by (vm_compute; discriminate);
    rewrite Hsame; auto;
    repeat (etransitivity; [apply writeSessionKey_fields|]); reflexivity.
Qed.

(** X21.  Once [saveSettings] has stored the keys, which it does
    before it asks the server, the keys in effect are the five fields
    as typed, trimmed; a field the page does not have gives the empty
    key.  This holds whether the browser grants access to the storage
    or not, and whatever the storage held before. *)
Theorem saved_keys_take_effect (s : Settings) :
  getCurrentKeys (fst (saveSettings s))
  = mkKeys (typed (keyGemini s)) (typed (keyAAI s)) (typed (keyMurf s))
           (typed (keyTavily s)) (typed (keyOW s)).
Proof.
  destruct (saveSettings_stored s) as (H1 & H2 & H3 & H4 & H5).
  unfold getCurrentKeys. rewrite H1, H2, H3, H4, H5.
  assert (Hf : keyGemini (fst (saveSettings s)) = keyGemini s
               /\ keyAAI (fst (saveSettings s)) = keyAAI s
               /\ keyMurf (fst (saveSettings s)) = keyMurf s
               /\ keyTavily (fst (saveSettings s)) = keyTavily s
               /\ keyOW (fst (saveSettings s)) = keyOW s).
  { unfold saveSettings. cbn [fst].
    repeat split;
      repeat (etransitivity; [apply writeSessionKey_fields|]); reflexivity. }
  destruct Hf as (-> & -> & -> & -> & ->).
  rewrite !field_key_typed.
  f_equal; unfold or_else;
    destruct (sessionStorage s); try reflexivity.
  all: match goal with |- context [truthy ?t] => destruct t end.
  all: reflexivity.
Qed.

(** X22.  Keys survive a reload of the tab: on a page of the same
    session that finds the storage as [saveSettings] left it, the
    prefill gives every field the page has the key that was typed,
    trimmed, whatever the field held.  In a browser that refuses
    access to the storage the fields come up empty. *)
Theorem saved_keys_survive_reload (s s' : Settings) :
  sessionId s' = sessionId s ->
  sessionStorage s' = sessionStorage (fst (saveSettings s)) ->
  let kept old field :=
    match old with
    | Some _ =>
        Some match sessionStorage s with
             | Some _ => typed field
             | None => []
             end
    | None => None
    end in
  keyGemini (prefill s') = kept (keyGemini s') (keyGemini s)
  /\ keyAAI (prefill s') = kept (keyAAI s') (keyAAI s)
  /\ keyMurf (prefill s') = kept (keyMurf s') (keyMurf s)
  /\ keyTavily (prefill s') = kept (keyTavily s') (keyTavily s)
  /\ keyOW (prefill s') = kept (keyOW s') (keyOW s).
Proof.
  intros Hsid Hst. cbv zeta.
  destruct (saveSettings_stored s) as (H1 & H2 & H3 & H4 & H5).
  assert (Hread : forall name,
            readSessionKey name s' = readSessionKey name (fst (saveSettings s))).
  { intros name. unfold readSessionKey. rewrite Hst, Hsid.
    replace (sessionId (fst (saveSettings s))) with (sessionId s);
      [reflexivity|].
    unfold saveSettings. cbn [fst]. symmetry.
    repeat (etransitivity; [apply writeSessionKey_fields|]); reflexivity. }
  unfold prefill.
  cbn [keyGemini keyAAI keyMurf keyTavily keyOW].
  rewrite !Hread, H1, H2, H3, H4, H5.
  repeat split.
Qed.

Lemma saved_keys_survive_reload_witness :
  let s := mkSettings (js "sid") (Some no_items) (Some (js " g ")) (Some (js "a"))
             None (Some []) (Some (js "w")) in
  let s' := mkSettings (js "sid") (sessionStorage (fst (saveSettings s)))
              (Some []) (Some (js "typed over")) None (Some []) None in
  keyGemini (prefill s') = Some (js "g")
  /\ keyAAI (prefill s') = Some (js "a")
  /\ keyMurf (prefill s') = None
  /\ keyTavily (prefill s') = Some []
  /\ keyOW (prefill s') = None.
Proof.
  exact (saved_keys_survive_reload
           (mkSettings (js "sid") (Some no_items) (Some (js " g ")) (Some (js "a"))
              None (Some []) (Some (js "w")))
           (mkSettings (js "sid")
              (sessionStorage
                 (fst (saveSettings
                         (mkSettings (js "sid") (Some no_items) (Some (js " g "))
                            (Some (js "a")) None (Some []) (Some (js "w"))))))
              (Some []) (Some (js "typed over")) None (Some []) None)
           eq_refl eq_refl).
Defined.

Lemma truthy_or_else a b : truthy (or_else a b) = truthy a || truthy b.
Proof. unfold or_else. now destruct a. Qed.

(** X23.  A key need not be saved to count: the check made before a
    feature starts passes exactly when each key the feature needs is
    stored for the session or typed in its field.  The microphone
    needs the AssemblyAI, Gemini and Murf keys, the two sidebar tools
    the Murf key only; the Tavily and OpenWeather keys are never
    asked for. *)
Theorem typed_keys_count (feature : Feature) (s : Settings) (st : State) :
  snd (requireKeysOrPrompt feature (getCurrentKeys s) st)
  = match feature with
    | mic =>
        at_hand (js "AAI") (keyAAI s) s
        && at_hand (js "GEMINI") (keyGemini s) s
        && at_hand (js "MURF") (keyMurf s) s
    | tts | echo => at_hand (js "MURF") (keyMurf s) s
    end.
Proof.
  unfold requireKeysOrPrompt, missing_keys, getCurrentKeys, at_hand.
  cbn [AAI GEMINI MURF]. rewrite <- !truthy_or_else, !field_key_typed.
  destruct feature;
    repeat match goal with
           | |- context [truthy (or_else ?a ?b)] =>
               destruct (truthy (or_else a b))
           end; reflexivity.
Qed.

(** ** A page without the chat element *)

Lemma no_chat_onPartial d st : no_chat st -> no_chat (onPartial d st).
Proof.
  intros [Hc Hl]. unfold no_chat, onPartial, addMsg, set_status.
  break_all; rewrite ?Hc, ?Hl; state_cbn; rewrite ?Hc, ?Hl; now split.
Qed.

Lemma no_chat_onTurnEnd transcript llm_response st :
  no_chat st -> no_chat (onTurnEnd transcript llm_response st).
Proof.
  intros [Hc Hl]. unfold no_chat, onTurnEnd. rewrite Hl.
  unfold addMsg, set_status.
  break_all; rewrite ?Hc; state_cbn; rewrite ?Hc; now split.
Qed.

Lemma no_chat_view st st' : same_view st st' -> no_chat st -> no_chat st'.
Proof. intros [Hr Hc] [H1 H2]. unfold no_chat. now rewrite Hr, Hc. Qed.

Lemma no_chat_onmessage ev st : no_chat st -> no_chat (onmessage ev st).
Proof.
  intros Hn.
  destruct (onmessage_cases ev st)
    as [(st1 & Hv & ->)|[Hv|(t & r & _ & ->)]].
  - apply no_chat_onPartial. now apply (no_chat_view st).
  - now apply (no_chat_view st).
  - now apply no_chat_onTurnEnd.
Qed.

(** X25.  On a page without the chat element no message ever makes a
    row, and none is ever live; the reconciler goes on all the same:
    a partial that differs from the last one is remembered and
    written to the status line. *)
Theorem page_without_chat (evs : list MessageEvent) (st : State)
    (ev : MessageEvent) (raw : jsstring) :
  no_chat st ->
  raw_event ev raw ->
  truthy (trim raw) = true ->
  let st' := onmessages evs st in
  let st2 := onmessage ev st' in
  no_chat st' /\ no_chat st2
  /\ (normalizeTranscript raw <> lastPartial (reco st') ->
      lastPartial (reco st2) = normalizeTranscript raw
      /\ llmStatus (dom st2)
         = match llmStatus (dom st') with
           | Some _ => Some (normalizeTranscript raw)
           | None => None
           end).
Proof.
  intros Hn Hev Hraw st' st2.
  assert (Hn' : no_chat st').
  { subst st2 st'. revert st Hn.
    induction evs as [|e evs IH]; intros st Hn; [exact Hn|].
    cbn [onmessages fold_left]. fold (onmessages evs (onmessage e st)).
    now apply IH, no_chat_onmessage. }
  split; [exact Hn'|]. split; [now apply no_chat_onmessage|].
  intros Hnew. subst st2. rewrite (onmessage_raw ev raw st' Hev).
  destruct Hn' as [Hc Hl].
  unfold onPartial. rewrite Hraw. unfold str_eqb.
  rewrite bool_decide_eq_false_2 by exact Hnew. cbn [negb].
  unfold addMsg, set_status. state_cbn. rewrite Hl. state_cbn.
  rewrite Hc. state_cbn.
  destruct (llmStatus (dom st')) eqn:Hs; state_cbn; rewrite ?Hs; state_cbn.
  all: now split.
Qed.

Lemma page_without_chat_witness :
  let st := with_dom (fun d => mkDom (llmStatus d) None (agentAudio d)
                                 (audioContext d) (dateNow d)) initial in
  let evs := [partial (js "one");
              mkMessage (Text []) (TurnEnd (Some (js "one")) (Some (js "hi")))] in
  let st' := onmessages evs st in
  let st2 := onmessage (partial (js "two")) st' in
  no_chat st' /\ no_chat st2
  /\ lastPartial (reco st2) = js "two"
  /\ llmStatus (dom st2) = Some (js "two").
Proof.
  cbv zeta.
  destruct (page_without_chat
              [partial (js "one");
               mkMessage (Text []) (TurnEnd (Some (js "one")) (Some (js "hi")))]
              (with_dom (fun d => mkDom (llmStatus d) None (agentAudio d)
                                    (audioContext d) (dateNow d)) initial)
              (partial (js "two")) (js "two"))
    as (H1 & H2 & H3).
  - split; reflexivity.
  - split; [reflexivity|now left].
  - reflexivity.
  - split; [exact H1|]. split; [exact H2|].
    apply H3. discriminate.
Defined.
